(** * DBSCAN (dbscan.py): a shallow embedding and its verified properties

    The development follows [src/dbscan.py]: the [Cluster] wrapper with its
    class-level id counter, the [DBSCAN] engine with its three accumulators
    ([Clusters], [NOISE], [visited]), the private helpers [__regionQuery]
    and [__expandCluster], and the public [run].

    Numbers.  For the engine as a whole, Python floats are modelled as
    exact rationals in canonical form ([Qc]), whose Leibniz equality
    coincides with numeric equality, the way [==] on tuples compares
    coordinates.  Rounding, NaN and infinities are outside that model; the
    properties of [run] are stated through the region query itself.  The
    arithmetic of [__regionQuery] is embedded a second time on binary64
    numbers ([regionQuery64]), where rounding, NaN and the overflow of [**]
    are visible.  [minPts] is a Python int, here [Z].

    Mutable state.  The engine object and the class attribute [Cluster.cid]
    are one record [State] that every operation threads through.  A cluster
    object is referred to by its position in [self.Clusters]; the local name
    [C] of the source is such a position, so that [C.addPoint] and the
    reading [cluster.pts] in the absorption scan see the same object. *)

From Stdlib Require Import String ZArith QArith Qcanon Bool Arith Lia.
From Stdlib Require Import Floats.
From Stdlib Require Import List FinFun.
Import ListNotations.

Local Close Scope Qc_scope.
Local Close Scope Q_scope.
Local Close Scope Z_scope.
Local Open Scope nat_scope.
Local Open Scope list_scope.

(** ** Points *)

(** A point is the tuple [(<string id>, <float x>, <float y>)];
    [label], [xcoord], [ycoord] are [p[0]], [p[1]], [p[2]]. *)
Record Point : Type := mkPoint {
  label : string;
  xcoord : Qc;
  ycoord : Qc
}.

(** Tuple equality [==]: component-wise. *)
Definition point_eqb (p q : Point) : bool :=
  String.eqb (label p) (label q)
  && Qc_eq_bool (xcoord p) (xcoord q)
  && Qc_eq_bool (ycoord p) (ycoord q).

(** [p in l] on a Python list. *)
Definition inb (p : Point) (l : list Point) : bool :=
  existsb (point_eqb p) l.

(** [a <= b] on numbers. *)
Definition Qc_le_bool (a b : Qc) : bool := Qle_bool (this a) (this b).

(** ** Clusters *)

(** [class Cluster]: an id and the list [pts]. *)
Record Cluster : Type := mkCluster {
  cid : Z;
  pts : list Point
}.

(** ** Engine state *)

(** The fields of a [DBSCAN] object, together with the class attribute
    [Cluster.cid] (the global id counter).  [eps] holds the squared
    threshold, as [self.eps] does. *)
Record State : Type := mkState {
  Cluster_cid : Z;
  D : list Point;
  minPts : Z;
  eps : Qc;
  Clusters : list Cluster;
  NOISE : list Point;
  visited : list Point
}.

(** [DBSCAN.__init__(self, D, eps, minPts)], run in a process whose
    counter [Cluster.cid] currently holds [next_cid]. *)
Definition DBSCAN_init (next_cid : Z) (D0 : list Point) (eps0 : Qc)
    (minPts0 : Z) : State :=
  {| Cluster_cid := next_cid;
     D := D0;
     minPts := minPts0;
     eps := (eps0 * eps0)%Qc;
     Clusters := [];
     NOISE := [];
     visited := [] |}.

Definition set_visited (v : list Point) (st : State) : State :=
  {| Cluster_cid := Cluster_cid st; D := D st; minPts := minPts st;
     eps := eps st; Clusters := Clusters st; NOISE := NOISE st;
     visited := v |}.

Definition set_NOISE (n : list Point) (st : State) : State :=
  {| Cluster_cid := Cluster_cid st; D := D st; minPts := minPts st;
     eps := eps st; Clusters := Clusters st; NOISE := n;
     visited := visited st |}.

Definition set_Clusters (cs : list Cluster) (st : State) : State :=
  {| Cluster_cid := Cluster_cid st; D := D st; minPts := minPts st;
     eps := eps st; Clusters := cs; NOISE := NOISE st;
     visited := visited st |}.

Definition set_Cluster_cid (n : Z) (st : State) : State :=
  {| Cluster_cid := n; D := D st; minPts := minPts st;
     eps := eps st; Clusters := Clusters st; NOISE := NOISE st;
     visited := visited st |}.

(** [self.visited.append(p)] and [self.NOISE.append(p)]. *)
Definition appendVisited (p : Point) (st : State) : State :=
  set_visited (visited st ++ [p]) st.

Definition appendNOISE (p : Point) (st : State) : State :=
  set_NOISE (NOISE st ++ [p]) st.

(** ** [__regionQuery] *)

(** The squared distance of the comprehension's condition:
    [(p[1] - pt[1])**2 + (p[2] - pt[2])**2]. *)
Definition sqdist (p pt : Point) : Qc :=
  ((xcoord p - xcoord pt) ^ 2 + (ycoord p - ycoord pt) ^ 2)%Qc.

(** [[p for p in D if sqdist <= eps]], with [eps = self.eps]. *)
Definition regionQuery (st : State) (pt : Point) : list Point :=
  filter (fun p => Qc_le_bool (sqdist p pt) (eps st)) (D st).

(** ** [Cluster.addPoint] through a reference *)

(** [pts] of the cluster object at position [c] of [self.Clusters]. *)
Definition pts_at (c : nat) (st : State) : list Point :=
  match nth_error (Clusters st) c with
  | Some C => pts C
  | None => []
  end.

Fixpoint addPoint_in (c : nat) (p : Point) (cs : list Cluster) {struct cs}
    : list Cluster :=
  match cs with
  | [] => []
  | C :: cs' =>
      match c with
      | O => {| cid := cid C; pts := pts C ++ [p] |} :: cs'
      | S c' => C :: addPoint_in c' p cs'
      end
  end.

(** [C.addPoint(p)] where [C] is the object at position [c]. *)
Definition addPoint (c : nat) (p : Point) (st : State) : State :=
  set_Clusters (addPoint_in c p (Clusters st)) st.

(** ** [__expandCluster] *)

(** The scan
    [for cluster in Clusters: if p not in cluster.pts: if p not in C.pts:
       C.addPoint(p); break].
    No object changes before the [break], so the clusters still to be
    scanned, [cs], are those of the store. *)
Fixpoint absorb (cs : list Cluster) (c : nat) (p : Point) (st : State)
    : State :=
  match cs with
  | [] => st
  | cluster :: cs' =>
      if negb (inb p (pts cluster)) then
        if negb (inb p (pts_at c st)) then addPoint c p st
        else absorb cs' c p st
      else absorb cs' c p st
  end.

(** [for n in NewNeighborhoodPts: if n not in NeighborhoodPts:
      appendNeighborhoodPts(n)]. *)
Definition extend (N New : list Point) : list Point :=
  fold_left (fun N' n => if negb (inb n N') then N' ++ [n] else N') New N.

(** One iteration of [for p in NeighborhoodPts], on the neighbour list [N]
    and the engine; returns both as they are after the iteration. *)
Definition expand_body (c : nat) (p : Point) (N : list Point) (st : State)
    : list Point * State :=
  let (N1, st1) :=
    if negb (inb p (visited st)) then
      let st1 := appendVisited p st in
      let NewNeighborhoodPts := regionQuery st1 p in
      if (minPts st1 <=? Z.of_nat (length NewNeighborhoodPts))%Z
      then (extend N NewNeighborhoodPts, st1)
      else (N, st1)
    else (N, st) in
  (N1, absorb (Clusters st1) c p st1).

(** The [for] loop over the list [N] that grows while it is iterated: the
    iterator is a cursor [i] that reads [N[i]] afresh at each step and
    stops when [i] is past the end.  [fuel] bounds the iterations. *)
Fixpoint expand_loop (fuel : nat) (c : nat) (i : nat) (N : list Point)
    (st : State) : option (list Point * State) :=
  match nth_error N i with
  | None => Some (N, st)
  | Some p =>
      match fuel with
      | O => None
      | S fuel' =>
          let (N', st') := expand_body c p N st in
          expand_loop fuel' c (S i) N' st'
      end
  end.

(** [__expandCluster(self, pt, NeighborhoodPts, C)]. *)
Definition expandCluster (fuel : nat) (pt : Point) (N : list Point)
    (c : nat) (st : State) : option (list Point * State) :=
  expand_loop fuel c 0 N (addPoint c pt st).

(** ** [run] *)

(** [C = Cluster(); self.Clusters.append(C)]: the new object takes the
    counter's value as its id, the counter is incremented, and the object
    is appended; the result is the reference [C] and the new state. *)
Definition new_Cluster (st : State) : nat * State :=
  let C := {| cid := Cluster_cid st; pts := [] |} in
  (length (Clusters st),
   set_Clusters (Clusters st ++ [C])
     (set_Cluster_cid (Cluster_cid st + 1)%Z st)).

(** The body of [for pt in self.D]. *)
Definition run_body (fuel : nat) (pt : Point) (st : State) : option State :=
  if negb (inb pt (visited st)) then
    let st1 := appendVisited pt st in
    let NeighborhoodPts := regionQuery st1 pt in
    if (Z.of_nat (length NeighborhoodPts) <? minPts st1)%Z then
      Some (appendNOISE pt st1)
    else
      let (C, st2) := new_Cluster st1 in
      option_map snd (expandCluster fuel pt NeighborhoodPts C st2)
  else Some st.

Fixpoint run_loop (fuel : nat) (todo : list Point) (st : State)
    : option State :=
  match todo with
  | [] => Some st
  | pt :: todo' =>
      match run_body fuel pt st with
      | Some st' => run_loop fuel todo' st'
      | None => None
      end
  end.

(** [run(self)] with [fuel] iterations allowed to each expansion; [None]
    only when an expansion runs out of fuel. *)
Definition run_fuel (fuel : nat) (st : State) : option State :=
  run_loop fuel (D st) st.

(** An expansion never needs more iterations than the dataset has points
    (see [expand_loop_terminates]). *)
Definition run_state (st : State) : option State :=
  run_fuel (length (D st)) st.

(** The value returned by [run]: [(self.Clusters, self.NOISE)]. *)
Definition result (st : State) : list Cluster * list Point :=
  (Clusters st, NOISE st).

Definition run (st : State) : option (list Cluster * list Point) :=
  option_map result (run_state st).

(** The caller's view: build the engine, run it. *)
Definition dbscan (next_cid : Z) (D0 : list Point) (eps0 : Qc)
    (minPts0 : Z) : option (list Cluster * list Point) :=
  run (DBSCAN_init next_cid D0 eps0 minPts0).

(** ** [__regionQuery] on binary64 numbers *)


Section Binary64.

(** [x ** 2] on a float is the platform's [pow(x, 2.0)]; [None] stands for
    the [OverflowError] that Python raises when the result is out of
    range. *)
Variable pow2 : float -> option float.




End Binary64.



(** The rational number that a finite float stands for. *)
Definition exact (x : float) : Q :=
  match Prim2SF x with
  | S754_finite s m e => (inject_Z (cond_Zopp s (Zpos m)) * Qpower (2 # 1) e)%Q
  | _ => 0%Q
  end.

(** ** Test data *)

Definition num (n : Z) (d : positive) : Qc := Q2Qc (n # d).

Definition pnt (s : string) (x y : Z) : Point :=
  mkPoint s (num x 1) (num y 1).

(** A border point that is met as a seed before its core neighbour: [A]
    has only two neighbours at distance 1, [B] has three. *)
Definition border_first : list Point :=
  [pnt "A" 0 0; pnt "B" 1 0; pnt "C" 2 0].

(** The absorption scan adds [p] to [C] whenever [C] lacks it, also when
    an earlier cluster holds [p]: the border point [M], between the core
    points [P] and [Q], ends in both clusters. *)
Definition shared_border : list Point :=
  [pnt "P" (-1) 0; pnt "a" (-2) 0; pnt "b" (-1) 1; pnt "M" 0 0;
   pnt "Q" 1 0; pnt "d" 2 0; pnt "e" 1 1].

(** * Vocabulary of the proofs *)

(** Equality of points is decidable. *)
Definition point_eq_dec (p q : Point) : {p = q} + {p <> q}.
Proof.
  decide equality; [apply Qc_eq_dec | apply Qc_eq_dec | apply string_dec].
Defined.

(** What one iteration of the expansion does to a list kept with "append
    unless present" ([visited], [C.pts]), to the neighbour list, and to
    the cluster [C]. *)
Definition visit (p : Point) (v : list Point) : list Point :=
  if inb p v then v else v ++ [p].

Definition grow (st : State) (p : Point) (N : list Point) : list Point :=
  if inb p (visited st) then N
  else if (minPts st <=? Z.of_nat (length (regionQuery st p)))%Z
       then extend N (regionQuery st p) else N.

Definition take_in (p : Point) (C : Cluster) : Cluster :=
  if inb p (pts C) then C else {| cid := cid C; pts := pts C ++ [p] |}.

(** A point is a core point when its neighbourhood has at least [minPts]
    members: the test [len(NewNeighborhoodPts) >= minPts]. *)
Definition core (st : State) (p : Point) : bool :=
  (minPts st <=? Z.of_nat (length (regionQuery st p)))%Z.

(** The inputs of the engine, which no operation writes. *)
Definition same_params (st st' : State) : Prop :=
  D st' = D st /\ minPts st' = minPts st /\ eps st' = eps st.

(** During an expansion entered in state [st0], with the clusters [pre]
    before [C] and [k] the id of [C], only [visited] and [C] change. *)
Definition frame (st0 : State) (pre : list Cluster) (k : Z) (st : State)
    : Prop :=
  same_params st0 st /\ Cluster_cid st = Cluster_cid st0 /\
  NOISE st = NOISE st0 /\
  exists C, Clusters st = pre ++ [C] /\ cid C = k.

(** The neighbour list is its entry value [N0] followed by distinct
    dataset points that the entry value lacks. *)
Definition extends_N0 (st0 : State) (N0 N : list Point) : Prop :=
  exists A, N = N0 ++ A /\ NoDup A /\
            forall a, In a A -> In a (D st0) /\ ~ In a N0.

(** Both [visited] and [C.pts] are updated with "append unless present" by
    the point under the cursor.  [tracks base i N l]: the list [l] is its
    entry value [base] followed by points of the processed prefix of [N],
    and holds that whole prefix. *)
Definition tracks (base : list Point) (i : nat) (N l : list Point) : Prop :=
  (exists W, l = base ++ W /\ forall q, In q W -> In q (firstn i N)) /\
  (NoDup base -> NoDup l) /\
  (forall q, In q (firstn i N) -> In q l).

(** The neighbourhood of every core point visited during this expansion
    has been merged into the neighbour list. *)
Definition merged (st0 : State) (N : list Point) (st : State) : Prop :=
  forall q, In q (visited st) -> ~ In q (visited st0) ->
            core st0 q = true -> incl (regionQuery st0 q) N.

(** The invariant of the expansion loop, entered in state [st0] with the
    neighbour list [N0], [C0] being the value of [C] at entry. *)
Definition exp_inv (st0 : State) (pre : list Cluster) (C0 : Cluster)
    (N0 : list Point) (i : nat) (N : list Point) (st : State) : Prop :=
  frame st0 pre (cid C0) st /\
  extends_N0 st0 N0 N /\
  tracks (visited st0) i N (visited st) /\
  tracks (pts C0) i N (pts_at (length pre) st) /\
  merged st0 N st.

(** A set of points closed under "neighbour of a core point". *)
Definition closed_under_core (st0 : State) (R : Point -> Prop) : Prop :=
  forall q, R q -> core st0 q = true ->
            forall a, In a (regionQuery st0 q) -> R a.

(** The neighbour list and [visited] lie in the set [R]. *)
Definition within (st0 : State) (pre : list Cluster) (R : Point -> Prop)
    (N : list Point) (st : State) : Prop :=
  same_params st0 st /\ (exists C, Clusters st = pre ++ [C]) /\
  (forall a, In a N -> R a) /\ (forall a, In a (visited st) -> R a).

(** The outcome of the iteration that founds a cluster on the seed [p]:
    the final neighbour list [N'], the points [W] visited after the seed,
    and the members [X] that joined the cluster after the seed. *)
Definition expanded (st : State) (p : Point) (st' : State) : Prop :=
  same_params st st' /\
  Cluster_cid st' = (Cluster_cid st + 1)%Z /\
  NOISE st' = NOISE st /\
  exists N' W X,
    extends_N0 st (regionQuery st p) N' /\
    visited st' = visited st ++ p :: W /\
    incl W N' /\ incl N' (visited st') /\
    (NoDup (visited st ++ [p]) -> NoDup (visited st')) /\
    Clusters st' = Clusters st ++ [ {| cid := Cluster_cid st; pts := p :: X |} ] /\
    NoDup (p :: X) /\ incl X N' /\ incl N' (p :: X) /\
    (forall q, In q (visited st') -> core st q = true ->
               In q (visited st) \/ incl (regionQuery st q) N') /\
    (forall R : Point -> Prop,
       closed_under_core st R ->
       (forall a, In a (visited st) -> R a) -> R p ->
       (forall a, In a (regionQuery st p) -> R a) ->
       forall a, In a (visited st') -> R a).

(** Some cluster of [cs] has [q] among its members. *)
Definition clustered (cs : list Cluster) (q : Point) : Prop :=
  exists C, In C cs /\ In q (pts C).

(** The invariant of [run]'s loop. *)
Definition wf (st : State) : Prop :=
  NoDup (visited st) /\ incl (visited st) (D st) /\
  NoDup (NOISE st) /\ incl (NOISE st) (visited st) /\
  (forall C, In C (Clusters st) ->
             NoDup (pts C) /\ incl (pts C) (visited st)) /\
  (forall q, In q (visited st) ->
             In q (NOISE st) \/ clustered (Clusters st) q).

(** All the entries of the output: the member lists one after the other,
    then the noise list. *)
Definition entries (r : list Cluster * list Point) : list Point :=
  concat (map pts (fst r)) ++ snd r.

(** The partition property as the specification words it: every input
    point has exactly one entry in the output, and the output has as many
    entries as the dataset has distinct points. *)
Definition partition_property (D0 : list Point)
    (r : list Cluster * list Point) : Prop :=
  (forall p, In p D0 -> count_occ point_eq_dec (entries r) p = 1) /\
  length (entries r) = length (nodup point_eq_dec D0).


(** [subseq l1 l2]: [l1] is [l2] with some elements left out, the others
    in their order. *)
Inductive subseq : list Point -> list Point -> Prop :=
| subseq_nil : subseq [] []
| subseq_keep (x : Point) (l1 l2 : list Point) :
    subseq l1 l2 -> subseq (x :: l1) (x :: l2)
| subseq_skip (x : Point) (l1 l2 : list Point) :
    subseq l1 l2 -> subseq l1 (x :: l2).

(** The same cluster, and the same engine, in a process whose id counter
    is [d] further on. *)
Definition reid (d : Z) (C : Cluster) : Cluster :=
  {| cid := (cid C + d)%Z; pts := pts C |}.

Definition renumber (d : Z) (st : State) : State :=
  {| Cluster_cid := (Cluster_cid st + d)%Z; D := D st; minPts := minPts st;
     eps := eps st; Clusters := map (reid d) (Clusters st);
     NOISE := NOISE st; visited := visited st |}.

Definition renumber_result (d : Z) (r : list Point * State)
    : list Point * State :=
  (fst r, renumber d (snd r)).

(** The ids [c0], [c0 + 1], ... of [n] clusters created in a row. *)
Definition ids (c0 : Z) (n : nat) : list Z :=
  map (fun i => (c0 + Z.of_nat i)%Z) (seq 0 n).

Definition numbered (c0 : Z) (st : State) : Prop :=
  map cid (Clusters st) = ids c0 (length (Clusters st)) /\
  Cluster_cid st = (c0 + Z.of_nat (length (Clusters st)))%Z.

(** At the boundaries of [run]'s loop, the neighbourhood of every visited
    core point is visited. *)
Definition closed (st : State) : Prop :=
  forall q, In q (visited st) -> core st q = true ->
            incl (regionQuery st q) (visited st).

(** The second engine has the same dataset and [minPts] as the first, and
    a threshold at least as large. *)
Definition coarser (s1 s2 : State) : Prop :=
  D s2 = D s1 /\ minPts s2 = minPts s1 /\ (eps s1 <= eps s2)%Qc.

(** The two runs side by side: the run with the larger threshold has
    visited at least as much, and has put on its noise list only points
    that the other run has put on its own. *)
Definition ahead (s1 s2 : State) : Prop :=
  coarser s1 s2 /\ closed s2 /\
  incl (visited s1) (visited s2) /\ incl (NOISE s2) (NOISE s1).

(** ** Density-reachability *)

(** [reachable st s a]: [a] is reached from [s] along a chain of core
    points, each next point a neighbour of the one before. *)
Inductive reachable (st : State) (s : Point) : Point -> Prop :=
| reach_seed : reachable st s s
| reach_step (q a : Point) :
    reachable st s q -> core st q = true -> In a (regionQuery st q) ->
    reachable st s a.

(** During the expansion from the seed [s], entered with [V0] visited
    before the seed: every point of the neighbour list is a neighbour of a
    core point that this expansion reached and that was not visited
    before. *)
Definition sourced (st0 : State) (pre : list Cluster) (V0 : list Point)
    (s : Point) (N : list Point) (st : State) : Prop :=
  same_params st0 st /\ (exists C, Clusters st = pre ++ [C]) /\
  incl V0 (visited st) /\
  (forall a, In a N ->
     exists w, In w (visited st) /\ ~ In w V0 /\ core st0 w = true /\
               In a (regionQuery st0 w) /\ reachable st0 s w).

(** The outcome of the iteration that founds a cluster on the seed [p],
    with where the members come from. *)
Definition founded (st : State) (p : Point) (st' : State) : Prop :=
  same_params st st' /\ NOISE st' = NOISE st /\
  exists N' W X,
    visited st' = visited st ++ p :: W /\
    Clusters st' = Clusters st ++ [ {| cid := Cluster_cid st; pts := p :: X |} ] /\
    NoDup (p :: X) /\ incl X N' /\ incl N' (p :: X) /\
    incl W N' /\ incl N' (visited st') /\
    incl (regionQuery st p) N' /\
    (forall q, In q (visited st') -> core st q = true ->
               In q (visited st) \/ incl (regionQuery st q) N') /\
    (forall a, In a N' ->
       exists w, In w (visited st') /\ ~ In w (visited st) /\
                 core st w = true /\ In a (regionQuery st w) /\
                 reachable st p w).

(** Every cluster starts with a core point, its seed, and holds exactly the
    points reachable from it. *)
Definition seeded (st : State) : Prop :=
  forall C, In C (Clusters st) ->
    exists s X, pts C = s :: X /\ core st s = true /\
                forall a, In a (pts C) <-> reachable st s a.

(** All the member lists, one after the other. *)
Definition all_members (cs : list Cluster) : list Point :=
  concat (map pts cs).

(** A core point is a member once if visited, and not at all if not. *)
Definition core_once (st : State) : Prop :=
  forall q, core st q = true ->
    count_occ point_eq_dec (all_members (Clusters st)) q
    = if inb q (visited st) then 1 else 0.

Definition noise_sparse (st : State) : Prop :=
  forall q, In q (NOISE st) -> core st q = false.

Definition solid (st : State) : Prop :=
  wf st /\ closed st /\ seeded st /\ core_once st /\ noise_sparse st.

(** The first members of the clusters, in order. *)
Definition seeds (cs : list Cluster) : list Point :=
  flat_map (fun C => firstn 1 (pts C)) cs.

(** The second engine has the same dataset as the first and is more
    permissive: a threshold at least as large, a [minPts] at most as
    large. *)
Definition laxer (s1 s2 : State) : Prop :=
  D s2 = D s1 /\ (minPts s2 <= minPts s1)%Z /\ (eps s1 <= eps s2)%Qc.

Definition ahead_lax (s1 s2 : State) : Prop :=
  laxer s1 s2 /\ closed s2 /\
  incl (visited s1) (visited s2) /\ incl (NOISE s2) (NOISE s1).

(** * Runs on test data *)

Example scenario_line :
  dbscan 0 [pnt "A" 0 0; pnt "B" 0 1; pnt "C" 0 2; pnt "D" 10 10] (num 3 2) 2
  = Some ([ {| cid := 0; pts := [pnt "A" 0 0; pnt "B" 0 1; pnt "C" 0 2] |} ],
          [pnt "D" 10 10]).
Proof. vm_compute. reflexivity. Qed.

Example scenario_empty : dbscan 0 [] (num 1 1) 1 = Some ([], []).
Proof. reflexivity. Qed.

(** * Basic facts *)

Section Basics.

Lemma Qc_eq_bool_refl (a : Qc) : Qc_eq_bool a a = true.
Proof. unfold Qc_eq_bool. destruct (Qc_eq_dec a a); congruence. Qed.

Lemma point_eqb_eq (p q : Point) : point_eqb p q = true <-> p = q.
Proof.
  unfold point_eqb. split.
  - intros H. apply andb_prop in H as [H Hy]. apply andb_prop in H as [Hl Hx].
    apply String.eqb_eq in Hl. apply Qc_eq_bool_correct in Hx, Hy.
    destruct p, q; simpl in *; congruence.
  - intros ->. now rewrite String.eqb_refl, !Qc_eq_bool_refl.
Qed.

Lemma inb_In (p : Point) (l : list Point) : inb p l = true <-> In p l.
Proof.
  unfold inb. rewrite existsb_exists. split.
  - intros (q & Hq & E). apply point_eqb_eq in E. now subst.
  - intros H. exists p. split; [assumption | now apply point_eqb_eq].
Qed.

Lemma inb_not_In (p : Point) (l : list Point) : inb p l = false <-> ~ In p l.
Proof.
  rewrite <- inb_In. destruct (inb p l); split; congruence.
Qed.

Lemma Qc_le_bool_iff (a b : Qc) : Qc_le_bool a b = true <-> (a <= b)%Qc.
Proof. unfold Qc_le_bool, Qcle. apply Qle_bool_iff. Qed.

Lemma regionQuery_In (st : State) (p q : Point) :
  In q (regionQuery st p) <-> In q (D st) /\ (sqdist q p <= eps st)%Qc.
Proof.
  unfold regionQuery. rewrite filter_In. now rewrite Qc_le_bool_iff.
Qed.

Lemma regionQuery_incl (st : State) (p : Point) :
  incl (regionQuery st p) (D st).
Proof. intros q H. now apply regionQuery_In in H. Qed.

End Basics.

(** * Arithmetic of the threshold *)

Section Threshold.

Local Open Scope Qc_scope.

Lemma sqdist_self (p : Point) : sqdist p p = 0.
Proof. unfold sqdist. simpl. ring. Qed.

Lemma sqdist_sym (p q : Point) : sqdist p q = sqdist q p.
Proof. unfold sqdist. simpl. ring. Qed.

Lemma Qc_square_nonneg (e : Qc) : 0 <= e * e.
Proof.
  destruct (Qclt_le_dec e 0) as [Hneg | Hpos].
  - replace (e * e) with ((- e) * (- e)) by ring.
    assert (H : 0 <= - e).
    { apply Qclt_le_weak in Hneg. apply Qcopp_le_compat in Hneg.
      now replace (- 0) with 0 in Hneg by ring. }
    replace 0 with (0 * - e) by ring.
    now apply Qcmult_le_compat_r.
  - replace 0 with (0 * e) by ring.
    now apply Qcmult_le_compat_r.
Qed.

Lemma Qc_square_mono (a b : Qc) : 0 <= a -> a <= b -> a * a <= b * b.
Proof.
  intros Ha Hab.
  assert (Hb : 0 <= b) by (eapply Qcle_trans; eassumption).
  apply Qcle_trans with (a * b).
  - rewrite (Qcmult_comm a b). now apply Qcmult_le_compat_r.
  - now apply Qcmult_le_compat_r.
Qed.

Lemma Qc_square_opp (e : Qc) : (- e) * (- e) = e * e.
Proof. ring. Qed.

End Threshold.

(** * The helpers, characterised *)

Section Helpers.

(** [extend] appends to [N], in order and once each, the points of [New]
    that [N] lacks. *)
Lemma extend_spec (New N : list Point) :
  exists A,
    extend N New = N ++ A /\ NoDup A /\
    (forall a, In a A -> In a New /\ ~ In a N) /\
    (forall a, In a New -> In a N \/ In a A).
Proof.
  unfold extend. revert N.
  induction New as [| n New IH]; intros N; simpl.
  - exists []. rewrite app_nil_r.
    split; [reflexivity |]. split; [constructor |].
    split; intros a [].
  - destruct (inb n N) eqn:E; simpl.
    + destruct (IH N) as (A & HA & Hnd & Hin & Hcov).
      exists A. repeat split; try assumption.
      * right. now apply Hin.
      * now apply Hin.
      * intros a [<- | Ha]; [left; now apply inb_In | now apply Hcov].
    + destruct (IH (N ++ [n])) as (A & HA & Hnd & Hin & Hcov).
      apply inb_not_In in E.
      exists (n :: A). repeat split.
      * rewrite HA, <- app_assoc. reflexivity.
      * constructor; [| assumption].
        intros Hn. apply Hin in Hn as [_ Hn]. apply Hn.
        apply in_or_app. right. now left.
      * destruct H as [<- | Ha]; [now left | right; now apply Hin].
      * intros Ha'. destruct H as [<- | Ha]; [contradiction |].
        apply Hin in Ha as [_ Ha]. apply Ha. apply in_or_app. now left.
      * intros a [<- | Ha]; [right; now left |].
        apply Hcov in Ha as [Ha | Ha]; [| right; now right].
        apply in_app_or in Ha as [Ha | [<- | []]];
          [now left | right; now left].
Qed.

(** [addPoint] on the last cluster of the list. *)
Lemma addPoint_in_last (pre : list Cluster) (C : Cluster) (p : Point) :
  addPoint_in (length pre) p (pre ++ [C])
  = pre ++ [ {| cid := cid C; pts := pts C ++ [p] |} ].
Proof. induction pre as [| K pre IH]; simpl; [reflexivity | now rewrite IH]. Qed.

Lemma pts_at_last (st : State) (pre : list Cluster) (C : Cluster) :
  Clusters st = pre ++ [C] -> pts_at (length pre) st = pts C.
Proof.
  intros H. unfold pts_at. rewrite H, nth_error_app2 by lia.
  now rewrite Nat.sub_diag.
Qed.

(** The scan adds [p] to [C] exactly when [C] lacks it, whatever the other
    clusters hold: [C] itself is among the clusters scanned. *)
Lemma absorb_no_change (cs : list Cluster) (c : nat) (p : Point) (st : State) :
  inb p (pts_at c st) = true -> absorb cs c p st = st.
Proof.
  intros H. induction cs as [| K cs IH]; simpl; [reflexivity |].
  rewrite H. simpl. now destruct (negb (inb p (pts K))).
Qed.

Lemma absorb_adds (cs : list Cluster) (c : nat) (p : Point) (st : State) :
  inb p (pts_at c st) = false ->
  (exists K, In K cs /\ inb p (pts K) = false) ->
  absorb cs c p st = addPoint c p st.
Proof.
  intros H. induction cs as [| K cs IH]; intros (K' & HK' & E); simpl.
  - destruct HK'.
  - rewrite H. simpl. destruct (inb p (pts K)) eqn:EK; simpl; [| reflexivity].
    apply IH. exists K'. split; [| assumption].
    destruct HK' as [-> | HK']; [congruence | assumption].
Qed.

Lemma absorb_last (st : State) (pre : list Cluster) (C : Cluster) (p : Point) :
  Clusters st = pre ++ [C] ->
  absorb (Clusters st) (length pre) p st
  = if inb p (pts C) then st
    else set_Clusters (pre ++ [ {| cid := cid C; pts := pts C ++ [p] |} ]) st.
Proof.
  intros H. pose proof (pts_at_last st pre C H) as Hat.
  destruct (inb p (pts C)) eqn:E.
  - apply absorb_no_change. now rewrite Hat.
  - rewrite absorb_adds.
    + unfold addPoint. now rewrite H, addPoint_in_last.
    + now rewrite Hat.
    + exists C. split; [| assumption]. rewrite H. apply in_or_app. right. now left.
Qed.

Lemma expand_body_last (st : State) (pre : list Cluster) (C : Cluster)
    (p : Point) (N : list Point) :
  Clusters st = pre ++ [C] ->
  expand_body (length pre) p N st
  = (grow st p N,
     {| Cluster_cid := Cluster_cid st; D := D st; minPts := minPts st;
        eps := eps st; Clusters := pre ++ [take_in p C];
        NOISE := NOISE st; visited := visit p (visited st) |}).
Proof.
  intros H. unfold expand_body, grow, visit, take_in.
  destruct (inb p (visited st)) eqn:Ev; simpl.
  - rewrite (absorb_last st pre C p H).
    destruct (inb p (pts C)); destruct st; simpl in *; now subst.
  - change (regionQuery (appendVisited p st) p) with (regionQuery st p).
    destruct (minPts st <=? Z.of_nat (length (regionQuery st p)))%Z;
      rewrite (absorb_last (appendVisited p st) pre C p H);
      destruct (inb p (pts C)); destruct st; simpl in *; now subst.
Qed.

End Helpers.

(** * Reasoning rules for the two loops *)

Section LoopRules.

(** Partial correctness of the expansion loop: an invariant of the body
    holds at exit, where the cursor has passed the end of the list. *)
Lemma expand_loop_inv (c : nat) (I : nat -> list Point -> State -> Prop) :
  (forall i N st p, I i N st -> nth_error N i = Some p ->
     I (S i) (fst (expand_body c p N st)) (snd (expand_body c p N st))) ->
  forall fuel i N st r,
    I i N st -> expand_loop fuel c i N st = Some r ->
    exists i', length (fst r) <= i' /\ I i' (fst r) (snd r).
Proof.
  intros Hbody fuel.
  induction fuel as [| fuel IH]; intros i N st r HI Hrun; simpl in Hrun.
  - destruct (nth_error N i) eqn:E; [discriminate |].
    injection Hrun as <-. exists i. split; [| assumption].
    now apply nth_error_None.
  - destruct (nth_error N i) as [p |] eqn:E.
    + specialize (Hbody i N st p HI E).
      destruct (expand_body c p N st) as [N' st']. simpl in Hbody.
      now apply (IH (S i) N' st' r).
    + injection Hrun as <-. exists i. split; [| assumption].
      now apply nth_error_None.
Qed.

(** Total correctness: if the invariant bounds the length of the list by
    [B], then [B - i] units of fuel are enough from cursor [i]. *)
Lemma expand_loop_total (c : nat) (J : list Point -> State -> Prop) (B : nat) :
  (forall N st p, J N st ->
     J (fst (expand_body c p N st)) (snd (expand_body c p N st))) ->
  (forall N st, J N st -> length N <= B) ->
  forall fuel i N st,
    J N st -> B <= fuel + i ->
    exists r, expand_loop fuel c i N st = Some r.
Proof.
  intros Hbody Hbound fuel.
  induction fuel as [| fuel IH]; intros i N st HJ Hfuel; simpl.
  - destruct (nth_error N i) eqn:E; [| eauto].
    assert (i < length N) by (apply nth_error_Some; congruence).
    specialize (Hbound N st HJ). lia.
  - destruct (nth_error N i) as [p |] eqn:E; [| eauto].
    specialize (Hbody N st p HJ).
    destruct (expand_body c p N st) as [N' st']. simpl in Hbody.
    apply IH; [assumption | lia].
Qed.

(** More fuel never changes a result. *)
Lemma expand_loop_fuel_mono (c : nat) (fuel fuel' : nat) :
  fuel <= fuel' ->
  forall i N st r,
    expand_loop fuel c i N st = Some r -> expand_loop fuel' c i N st = Some r.
Proof.
  revert fuel'. induction fuel as [| fuel IH]; intros fuel' Hle i N st r H.
  - simpl in H. destruct (nth_error N i) eqn:E; [discriminate |].
    destruct fuel'; simpl; now rewrite E.
  - destruct fuel' as [| fuel']; [lia |]. simpl in *.
    destruct (nth_error N i) eqn:E; [| assumption].
    destruct (expand_body c p N st) as [N' st'].
    apply IH; [lia | assumption].
Qed.

(** The outer loop: an invariant of its body holds at the end. *)
Lemma run_loop_inv (fuel : nat) (I : State -> Prop) (todo : list Point) :
  (forall p st st', In p todo -> I st -> run_body fuel p st = Some st' -> I st') ->
  forall st st',
    I st -> run_loop fuel todo st = Some st' -> I st'.
Proof.
  induction todo as [| p todo IH]; intros Hbody st st' HI Hrun; simpl in Hrun.
  - now injection Hrun as <-.
  - destruct (run_body fuel p st) as [st1 |] eqn:E; [| discriminate].
    apply (IH (fun q s s' Hq => Hbody q s s' (or_intror Hq)) st1 st');
      [| assumption].
    apply (Hbody p st st1); [now left | assumption | assumption].
Qed.

End LoopRules.

(** * Expansion: what stays, what grows *)

Lemma same_params_refl (st : State) : same_params st st.
Proof. now repeat split. Qed.

Lemma same_params_trans (a b c : State) :
  same_params a b -> same_params b c -> same_params a c.
Proof. unfold same_params. intros (? & ? & ?) (? & ? & ?). repeat split; congruence. Qed.

Lemma regionQuery_params (st st' : State) (p : Point) :
  same_params st st' -> regionQuery st' p = regionQuery st p.
Proof. intros (HD & _ & He). unfold regionQuery. now rewrite HD, He. Qed.

Lemma core_params (st st' : State) (p : Point) :
  same_params st st' -> core st' p = core st p.
Proof.
  intros H. unfold core. rewrite (regionQuery_params st st' p H).
  destruct H as (_ & -> & _). reflexivity.
Qed.

Lemma firstn_snoc (N A : list Point) (i : nat) (p : Point) :
  nth_error N i = Some p -> firstn (S i) (N ++ A) = firstn i N ++ [p].
Proof.
  revert i. induction N as [| x N IH]; intros i H.
  - destruct i; discriminate.
  - destruct i as [| i]; simpl in *.
    + now injection H as ->.
    + f_equal. now apply IH.
Qed.

Lemma grow_spec (st : State) (p : Point) (N : list Point) :
  exists A,
    grow st p N = N ++ A /\ NoDup A /\
    (forall a, In a A ->
       In a (regionQuery st p) /\ ~ In a N /\
       inb p (visited st) = false /\ core st p = true) /\
    (inb p (visited st) = false -> core st p = true ->
     forall a, In a (regionQuery st p) -> In a (N ++ A)).
Proof.
  unfold grow, core.
  destruct (inb p (visited st)) eqn:Ev;
    [| destruct (minPts st <=? Z.of_nat (length (regionQuery st p)))%Z eqn:Ec ].
  2: { destruct (extend_spec (regionQuery st p) N) as (A & HA & Hnd & Hin & Hcov).
       exists A. repeat split; try assumption; try (now apply Hin).
       intros _ _ a Ha. apply in_or_app. now apply Hcov. }
  all: exists []; rewrite app_nil_r; split; [reflexivity |];
    split; [constructor |]; split; [intros a [] | intros; congruence].
Qed.

Section Expansion.

(** The state at the entry of the loop, the clusters before [C], the id of
    [C], and the neighbour list at entry. *)
Variables (st0 : State) (pre : list Cluster) (k : Z) (N0 : list Point).

Lemma frame_body (st : State) (p : Point) (N : list Point) :
  frame st0 pre k st -> frame st0 pre k (snd (expand_body (length pre) p N st)).
Proof.
  intros (Hp & Hc & Hn & C & HC & Hk).
  rewrite (expand_body_last st pre C p N HC). simpl.
  repeat split; try apply Hp; try assumption.
  exists (take_in p C). split; [reflexivity |].
  unfold take_in. now destruct (inb p (pts C)).
Qed.

Lemma extends_N0_body (st : State) (p : Point) (N : list Point) :
  frame st0 pre k st -> extends_N0 st0 N0 N ->
  extends_N0 st0 N0 (fst (expand_body (length pre) p N st)).
Proof.
  intros (Hp & _ & _ & C & HC & _) (A & -> & Hnd & HA).
  rewrite (expand_body_last st pre C p _ HC). simpl.
  destruct (grow_spec st p (N0 ++ A)) as (A' & -> & Hnd' & HA' & _).
  exists (A ++ A'). split; [now rewrite app_assoc |]. split.
  - apply NoDup_app; try assumption.
    intros a Ha Ha'. apply HA' in Ha' as (_ & Hn & _).
    apply Hn. apply in_or_app. now right.
  - intros a Ha. apply in_app_or in Ha as [Ha | Ha]; [now apply HA |].
    apply HA' in Ha as (Hq & Hn & _). split.
    + destruct Hp as (HD & _). rewrite <- HD. now apply regionQuery_incl in Hq.
    + intros H. apply Hn. apply in_or_app. now left.
Qed.

End Expansion.

(** * Termination *)

Section Termination.

Lemma extends_N0_bound (st0 : State) (p : Point) (N : list Point) :
  extends_N0 st0 (regionQuery st0 p) N -> length N <= length (D st0).
Proof.
  intros (A & -> & Hnd & HA). unfold regionQuery in *.
  set (f := fun q => Qc_le_bool (sqdist q p) (eps st0)) in *.
  rewrite length_app, <- (filter_length f (D st0)).
  apply Nat.add_le_mono_l. apply NoDup_incl_length; [assumption |].
  intros a Ha. apply HA in Ha as [HaD Hnot]. apply filter_In.
  split; [assumption |].
  destruct (f a) eqn:E; [| reflexivity].
  exfalso. apply Hnot. apply filter_In. now split.
Qed.

Lemma addPoint_last (st : State) (pre : list Cluster) (C : Cluster) (p : Point) :
  Clusters st = pre ++ [C] ->
  addPoint (length pre) p st
  = set_Clusters (pre ++ [ {| cid := cid C; pts := pts C ++ [p] |} ]) st.
Proof. intros H. unfold addPoint. now rewrite H, addPoint_in_last. Qed.

Lemma frame_refl (st : State) (pre : list Cluster) (C : Cluster) :
  Clusters st = pre ++ [C] -> frame st pre (cid C) st.
Proof.
  intros H. split; [apply same_params_refl |]. repeat split. now exists C.
Qed.

(** From a neighbour list that is a region query, the expansion loop ends
    within [length D] iterations. *)
Lemma expand_loop_terminates (st : State) (pre : list Cluster) (C : Cluster)
    (p : Point) (fuel : nat) :
  Clusters st = pre ++ [C] -> length (D st) <= fuel ->
  exists r, expand_loop fuel (length pre) 0 (regionQuery st p) st = Some r.
Proof.
  intros HC Hfuel.
  apply (expand_loop_total (length pre)
           (fun N s => frame st pre (cid C) s
                       /\ extends_N0 st (regionQuery st p) N)
           (length (D st))).
  - intros N s q [Hf He]. split.
    + now apply frame_body.
    + now apply extends_N0_body with (k := cid C).
  - intros N s [_ He]. now apply extends_N0_bound with (p := p).
  - split; [now apply frame_refl |].
    exists []. rewrite app_nil_r. split; [reflexivity |].
    split; [constructor | intros a []].
  - lia.
Qed.

Lemma expandCluster_terminates (st : State) (pre : list Cluster) (C : Cluster)
    (p : Point) (fuel : nat) :
  Clusters st = pre ++ [C] -> length (D st) <= fuel ->
  exists r, expandCluster fuel p (regionQuery st p) (length pre) st = Some r.
Proof.
  intros HC Hfuel. unfold expandCluster.
  rewrite (addPoint_last st pre C p HC).
  change (regionQuery st p)
    with (regionQuery
            (set_Clusters (pre ++ [ {| cid := cid C; pts := pts C ++ [p] |} ]) st) p).
  now apply expand_loop_terminates
    with (C := {| cid := cid C; pts := pts C ++ [p] |}).
Qed.

Lemma run_body_terminates (st : State) (p : Point) (fuel : nat) :
  length (D st) <= fuel -> exists st', run_body fuel p st = Some st'.
Proof.
  intros Hfuel. unfold run_body.
  destruct (negb (inb p (visited st))); [| eauto].
  destruct (Z.of_nat (length (regionQuery (appendVisited p st) p))
            <? minPts (appendVisited p st))%Z; [eauto |].
  unfold new_Cluster.
  set (C := {| cid := Cluster_cid (appendVisited p st); pts := [] |}).
  set (st2 := set_Clusters _ _).
  destruct (expandCluster_terminates st2 (Clusters (appendVisited p st)) C p fuel)
    as [r Hr]; [reflexivity | assumption |].
  change (regionQuery st2 p) with (regionQuery (appendVisited p st) p) in Hr.
  rewrite Hr. simpl. eauto.
Qed.

End Termination.

(** * Expansion: the bookkeeping lists *)

Section Tracking.

Lemma visit_In (p q : Point) (l : list Point) :
  In q (visit p l) <-> q = p \/ In q l.
Proof.
  unfold visit. destruct (inb p l) eqn:E.
  - apply inb_In in E. split; [now right |]. intros [-> | H]; assumption.
  - rewrite in_app_iff. simpl. split.
    + intros [H | [<- | []]]; [now right | now left].
    + intros [-> | H]; [right; now left | now left].
Qed.

Lemma visit_NoDup (p : Point) (l : list Point) :
  NoDup l -> NoDup (visit p l).
Proof.
  intros H. unfold visit. destruct (inb p l) eqn:E; [assumption |].
  apply inb_not_In in E. apply NoDup_app; [assumption | | ].
  - constructor; [intros [] | constructor].
  - intros a Ha [<- | []]. contradiction.
Qed.

Lemma tracks_init (base N : list Point) : tracks base 0 N base.
Proof.
  repeat split.
  - exists []. rewrite app_nil_r. split; [reflexivity | intros q []].
  - trivial.
  - intros q [].
Qed.

Lemma tracks_step (base N A l : list Point) (i : nat) (p : Point) :
  nth_error N i = Some p ->
  tracks base i N l -> tracks base (S i) (N ++ A) (visit p l).
Proof.
  intros Hp ((W & -> & HW) & Hnd & Hin). unfold tracks.
  rewrite (firstn_snoc N A i p Hp). repeat split.
  - unfold visit. destruct (inb p (base ++ W)).
    + exists W. split; [reflexivity |].
      intros q Hq. apply in_or_app. left. now apply HW.
    + exists (W ++ [p]). split; [now rewrite app_assoc |].
      intros q Hq. apply in_or_app.
      apply in_app_or in Hq as [Hq | Hq]; [left; now apply HW | now right].
  - intros H. apply visit_NoDup. now apply Hnd.
  - intros q Hq. apply visit_In.
    apply in_app_or in Hq as [Hq | [<- | []]]; [right; now apply Hin | now left].
Qed.

(** At exit the cursor is past the end: the prefix is the whole list. *)
Lemma tracks_exit (base N l : list Point) (i : nat) :
  length N <= i -> tracks base i N l ->
  (exists W, l = base ++ W /\ incl W N) /\ (NoDup base -> NoDup l) /\ incl N l.
Proof.
  intros Hi ((W & -> & HW) & Hnd & Hin).
  rewrite (firstn_all2 N Hi) in *.
  split; [exists W; now split | now split].
Qed.

End Tracking.

(** * Expansion: the invariant of the loop *)

Section ExpansionInvariant.

Variables (st0 : State) (pre : list Cluster) (C0 : Cluster) (N0 : list Point).

Lemma exp_inv_init :
  Clusters st0 = pre ++ [C0] -> exp_inv st0 pre C0 N0 0 N0 st0.
Proof.
  intros HC. split; [now apply frame_refl |]. split.
  { exists []. rewrite app_nil_r. split; [reflexivity |].
    split; [constructor | intros a []]. }
  split; [apply tracks_init |]. split.
  - rewrite (pts_at_last st0 pre C0 HC). apply tracks_init.
  - intros q Hq Hn. contradiction.
Qed.

Lemma exp_inv_body (i : nat) (N : list Point) (st : State) (p : Point) :
  exp_inv st0 pre C0 N0 i N st -> nth_error N i = Some p ->
  exp_inv st0 pre C0 N0 (S i) (fst (expand_body (length pre) p N st))
                (snd (expand_body (length pre) p N st)).
Proof.
  intros (Hf & He & Hv & Hc & Hm) Hp.
  split; [now apply frame_body |].
  split; [now apply extends_N0_body with (k := cid C0) |].
  destruct Hf as (Hpar & _ & _ & C & HC & _).
  rewrite (pts_at_last st pre C HC) in Hc.
  rewrite (expand_body_last st pre C p N HC). simpl.
  destruct (grow_spec st p N) as (A & -> & _ & HA & Hcov).
  split; [now apply tracks_step |]. split.
  - unfold pts_at. simpl. rewrite nth_error_app2 by lia.
    rewrite Nat.sub_diag. simpl.
    replace (pts (take_in p C)) with (visit p (pts C))
      by (unfold take_in, visit; now destruct (inb p (pts C))).
    now apply tracks_step.
  - intros q Hq Hn Hcore. simpl in Hq.
    apply visit_In in Hq as [-> | Hq].
    + destruct (inb p (visited st)) eqn:Ev.
      * apply inb_In in Ev. intros a Ha. apply in_or_app. left.
        now apply (Hm p Ev Hn Hcore).
      * intros a Ha. rewrite <- (regionQuery_params st0 st p Hpar) in Ha.
        apply (Hcov eq_refl); [| assumption].
        now rewrite (core_params st0 st p Hpar).
    + intros a Ha. apply in_or_app. left. now apply (Hm q Hq Hn Hcore).
Qed.

Lemma within_body (R : Point -> Prop) (N : list Point) (st : State)
    (i : nat) (p : Point) :
  closed_under_core st0 R ->
  within st0 pre R N st -> nth_error N i = Some p ->
  within st0 pre R (fst (expand_body (length pre) p N st))
           (snd (expand_body (length pre) p N st)).
Proof.
  intros HR (Hpar & (C & HC) & HN & HV) Hp.
  rewrite (expand_body_last st pre C p N HC). simpl.
  assert (Rp : R p) by (apply HN; eapply nth_error_In; eassumption).
  destruct (grow_spec st p N) as (A & -> & _ & HA & _).
  repeat split; try apply Hpar.
  - now exists (take_in p C).
  - intros a Ha. apply in_app_or in Ha as [Ha | Ha]; [now apply HN |].
    apply HA in Ha as (Hq & _ & _ & Hcore).
    rewrite (regionQuery_params st0 st p Hpar) in Hq.
    rewrite (core_params st0 st p Hpar) in Hcore.
    now apply (HR p Rp Hcore).
  - intros a Ha. apply visit_In in Ha as [-> | Ha]; [assumption | now apply HV].
Qed.

End ExpansionInvariant.

(** * One iteration of [run]'s loop *)

Section RunBody.

Lemma noise_test_core (st : State) (p : Point) :
  (Z.of_nat (length (regionQuery st p)) <? minPts st)%Z = negb (core st p).
Proof. unfold core. apply Z.ltb_antisym. Qed.

Lemma expandCluster_expanded (fuel : nat) (st : State) (p : Point)
    (r : list Point * State) :
  expandCluster fuel p (regionQuery st p) (length (Clusters st))
    (snd (new_Cluster (appendVisited p st))) = Some r ->
  expanded st p (snd r).
Proof.
  unfold expandCluster, new_Cluster. simpl snd.
  set (st2 := set_Clusters _ _).
  set (C0 := {| cid := Cluster_cid st; pts := [p] |}).
  assert (HC2 : Clusters st2
                = Clusters st ++ [ {| cid := Cluster_cid st; pts := [] |} ])
    by reflexivity.
  rewrite (addPoint_last st2 (Clusters st) _ p HC2). simpl app.
  set (st0 := set_Clusters _ st2). intros Hrun.
  assert (HC0 : Clusters st0 = Clusters st ++ [C0]) by reflexivity.
  assert (Hpar0 : same_params st st0) by (now repeat split).
  destruct (expand_loop_inv (length (Clusters st))
              (exp_inv st0 (Clusters st) C0 (regionQuery st p))
              (exp_inv_body st0 (Clusters st) C0 (regionQuery st p))
              fuel 0 (regionQuery st p) st0 r
              (exp_inv_init st0 (Clusters st) C0 (regionQuery st p) HC0) Hrun)
    as (i' & Hi' & Hf & He & Hv & Hc & Hm).
  destruct r as [N' st']. simpl in *.
  destruct Hf as (Hpar & Hcid & Hnoise & C & HC & Hk).
  rewrite (pts_at_last st' (Clusters st) C HC) in Hc.
  apply (tracks_exit _ _ _ _ Hi') in Hv as ((W & HW & HWN) & Hvnd & HNv).
  apply (tracks_exit _ _ _ _ Hi') in Hc as ((X & HX & HXN) & Hcnd & HNc).
  split; [exact Hpar |]. split; [exact Hcid |]. split; [exact Hnoise |].
  exists N', W, X.
  assert (Hvis : visited st' = visited st ++ p :: W).
  { rewrite HW. simpl. now rewrite <- app_assoc. }
  assert (Hpts : pts C = p :: X) by exact HX.
  split.
  { destruct He as (A & -> & Hnd & HA). exists A. repeat split; try assumption;
      now apply HA. }
  split; [exact Hvis |]. split; [exact HWN |]. split; [exact HNv |].
  split; [exact Hvnd |]. split.
  { rewrite HC. f_equal. destruct C as [kC pC]. simpl in *. now subst. }
  split.
  { rewrite <- Hpts. apply Hcnd. constructor; [intros [] | constructor]. }
  split; [exact HXN |]. split; [now rewrite <- Hpts |]. split.
  - intros q Hq Hcore.
    destruct (in_dec point_eq_dec q (visited st0)) as [Hin | Hout].
    + simpl in Hin. apply in_app_or in Hin as [Hin | [<- | []]]; [now left |].
      right. destruct He as (A & -> & _). intros a Ha. apply in_or_app. now left.
    + right. apply (Hm q Hq Hout). now rewrite (core_params st st0 q Hpar0).
  - intros R HR HV Rp HN a Ha.
    assert (Hw : exists i, length N' <= i /\ within st0 (Clusters st) R N' st').
    { apply (expand_loop_inv (length (Clusters st))
               (fun _ N s => within st0 (Clusters st) R N s))
        with (fuel := fuel) (i := 0) (N := regionQuery st p) (st := st0)
             (r := (N', st')).
      - intros i N s q Hw Hq.
        now apply (within_body st0 (Clusters st) R N s i q).
      - split; [apply same_params_refl |]. split; [now exists C0 |].
        split; [assumption |]. simpl.
        intros b Hb. apply in_app_or in Hb as [Hb | [<- | []]];
          [now apply HV | assumption].
      - assumption. }
    destruct Hw as (_ & _ & _ & _ & _ & Hin). now apply Hin.
Qed.

Lemma run_body_cases (fuel : nat) (p : Point) (st st' : State) :
  run_body fuel p st = Some st' ->
  (inb p (visited st) = true /\ st' = st) \/
  (inb p (visited st) = false /\ core st p = false /\
   st' = appendNOISE p (appendVisited p st)) \/
  (inb p (visited st) = false /\ core st p = true /\ expanded st p st').
Proof.
  unfold run_body. destruct (inb p (visited st)) eqn:Ev; simpl.
  - intros H. injection H as <-. now left.
  - change (regionQuery (appendVisited p st) p) with (regionQuery st p).
    change (minPts (appendVisited p st)) with (minPts st).
    rewrite noise_test_core. destruct (core st p) eqn:Ec; simpl.
    + intros H. right. right. split; [reflexivity |]. split; [reflexivity |].
      destruct (expandCluster fuel p (regionQuery st p) (length (Clusters st)) _)
        as [r |] eqn:Er; [| discriminate].
      simpl in H. injection H as <-.
      now apply (expandCluster_expanded fuel st p r).
    + intros H. injection H as <-. right. left. now repeat split.
Qed.

End RunBody.

(** * The outer loop *)

Section RunLoop.

Lemma expanded_visited (st st' : State) (p : Point) :
  expanded st p st' ->
  exists W, visited st' = visited st ++ p :: W.
Proof. intros (_ & _ & _ & N' & W & X & _ & H & _). now exists W. Qed.

Lemma run_body_params (fuel : nat) (p : Point) (st st' : State) :
  run_body fuel p st = Some st' -> same_params st st'.
Proof.
  intros H. apply run_body_cases in H as [[_ ->] | [(_ & _ & ->) | (_ & _ & H)]].
  - apply same_params_refl.
  - now repeat split.
  - apply H.
Qed.

Lemma run_loop_params (fuel : nat) (todo : list Point) (st st' : State) :
  run_loop fuel todo st = Some st' -> same_params st st'.
Proof.
  apply (run_loop_inv fuel (same_params st) todo); [| apply same_params_refl].
  intros p s s' _ Hs Hrun.
  eapply same_params_trans; [eassumption | now apply run_body_params in Hrun].
Qed.

(** With [length D] units of fuel for each expansion, the loop completes. *)
Lemma run_loop_terminates (fuel : nat) (todo : list Point) (st : State) :
  length (D st) <= fuel -> exists st', run_loop fuel todo st = Some st'.
Proof.
  revert st. induction todo as [| p todo IH]; intros st Hfuel; simpl.
  - eauto.
  - destruct (run_body_terminates st p fuel Hfuel) as [st1 H1]. rewrite H1.
    apply IH. apply run_body_params in H1 as (-> & _). assumption.
Qed.

(** The points visited so far stay visited, in place; the seed is visited
    after its iteration. *)
Lemma run_body_visited (fuel : nat) (p : Point) (st st' : State) :
  run_body fuel p st = Some st' ->
  (exists W, visited st' = visited st ++ W) /\ In p (visited st').
Proof.
  intros H. apply run_body_cases in H as [[E ->] | [(_ & _ & ->) | (_ & _ & H)]].
  - split; [exists []; now rewrite app_nil_r | now apply inb_In].
  - simpl. split; [now exists [p] | apply in_or_app; right; now left].
  - apply expanded_visited in H as [W ->].
    split; [now exists (p :: W) | apply in_or_app; right; now left].
Qed.

Lemma run_loop_visited (fuel : nat) (todo : list Point) (st st' : State) :
  run_loop fuel todo st = Some st' ->
  (exists W, visited st' = visited st ++ W) /\ incl todo (visited st').
Proof.
  revert st. induction todo as [| p todo IH]; intros st H; simpl in H.
  - injection H as <-. split; [exists []; now rewrite app_nil_r | intros q []].
  - destruct (run_body fuel p st) as [st1 |] eqn:E; [| discriminate].
    apply run_body_visited in E as ((W1 & E1) & Hp).
    apply IH in H as ((W & EW) & Hin). split.
    + exists (W1 ++ W). now rewrite EW, E1, app_assoc.
    + intros q [<- | Hq]; [| now apply Hin].
      rewrite EW. apply in_or_app. now left.
Qed.

End RunLoop.

(** * The invariant of [run] *)

Section WellFormed.

Lemma extends_N0_incl (st : State) (p : Point) (N : list Point) :
  extends_N0 st (regionQuery st p) N -> incl N (D st).
Proof.
  intros (A & -> & _ & HA) a Ha.
  apply in_app_or in Ha as [Ha | Ha];
    [now apply regionQuery_incl in Ha | now apply HA].
Qed.

Lemma NoDup_snoc (l : list Point) (p : Point) :
  NoDup l -> ~ In p l -> NoDup (l ++ [p]).
Proof.
  intros H Hp. apply NoDup_app; [assumption | constructor; [intros [] | constructor] |].
  intros a Ha [<- | []]. contradiction.
Qed.

Lemma clustered_app_l (cs cs' : list Cluster) (q : Point) :
  clustered cs q -> clustered (cs ++ cs') q.
Proof. intros (C & HC & Hq). exists C. split; [apply in_or_app; now left | assumption]. Qed.

Lemma wf_init (c0 : Z) (D0 : list Point) (e : Qc) (m : Z) :
  wf (DBSCAN_init c0 D0 e m).
Proof.
  unfold wf. simpl.
  split; [constructor |]. split; [intros q [] |].
  split; [constructor |]. split; [intros q [] |].
  split; intros q [].
Qed.

Lemma wf_body (fuel : nat) (p : Point) (st st' : State) :
  In p (D st) -> wf st -> run_body fuel p st = Some st' -> wf st'.
Proof.
  intros HpD Hwf H.
  apply run_body_cases in H as [[_ ->] | [(Ev & _ & ->) | (Ev & _ & H)]];
    [assumption | |]; destruct Hwf as (Hv & HvD & Hn & Hnv & Hcl & Hcov).
  - apply inb_not_In in Ev. unfold wf. simpl. repeat split.
    + now apply NoDup_snoc.
    + intros q Hq. apply in_app_or in Hq as [Hq | [<- | []]];
        [now apply HvD | assumption].
    + apply NoDup_snoc; [assumption |]. intros Hp. apply Ev. now apply Hnv.
    + intros q Hq. apply in_or_app.
      apply in_app_or in Hq as [Hq | Hq]; [left; now apply Hnv | now right].
    + now apply Hcl.
    + intros q Hq. apply in_or_app. left. now apply (Hcl C).
    + intros q Hq. apply in_app_or in Hq as [Hq | [<- | []]].
      * destruct (Hcov q Hq) as [Hq' | Hq']; [left | now right].
        apply in_or_app. now left.
      * left. apply in_or_app. right. now left.
  - apply inb_not_In in Ev.
    destruct H as ((HD & _ & _) & _ & HN & N' & W & X & He & HV & HWN & HNV
                   & Hnd & HC & HcX & HXN & HNX & _).
    assert (Hold : incl (visited st) (visited st')).
    { rewrite HV. intros q Hq. apply in_or_app. now left. }
    assert (Hp' : In p (visited st')).
    { rewrite HV. apply in_or_app. right. now left. }
    unfold wf. rewrite HD, HN, HC. repeat split.
    + apply Hnd. now apply NoDup_snoc.
    + rewrite HV. intros q Hq.
      apply in_app_or in Hq as [Hq | [<- | Hq]];
        [now apply HvD | assumption |].
      apply (extends_N0_incl st p N' He). now apply HWN.
    + assumption.
    + intros q Hq. apply Hold. now apply Hnv.
    + apply in_app_or in H as [H | [<- | []]]; [now apply Hcl | assumption].
    + apply in_app_or in H as [H | [<- | []]].
      * intros q Hq. apply Hold. now apply (Hcl C).
      * simpl. intros q [<- | Hq]; [assumption |]. apply HNV. now apply HXN.
    + intros q Hq. rewrite HV in Hq.
      apply in_app_or in Hq as [Hq | Hq].
      * destruct (Hcov q Hq) as [Hq' | Hq']; [now left |].
        right. now apply clustered_app_l.
      * right. exists {| cid := Cluster_cid st; pts := p :: X |}. split.
        -- apply in_or_app. right. now left.
        -- simpl. destruct Hq as [<- | Hq]; [now left |].
           apply (HNX q). now apply HWN.
Qed.

Lemma wf_run_loop (fuel : nat) (todo : list Point) (st st' : State) :
  incl todo (D st) -> wf st -> run_loop fuel todo st = Some st' -> wf st'.
Proof.
  intros Htodo Hwf Hrun.
  assert (H : same_params st st' /\ wf st'); [| apply H].
  apply (run_loop_inv fuel (fun s => same_params st s /\ wf s) todo)
    with (st := st); [| split; [apply same_params_refl | assumption] | assumption].
  intros p s s' Hp [Hpar Hs] Hb. split.
  - eapply same_params_trans; [eassumption | now apply run_body_params in Hb].
  - apply (wf_body fuel p s s'); try assumption.
    destruct Hpar as (-> & _). now apply Htodo.
Qed.

End WellFormed.

(** * Properties of [run] *)

(** ** Termination *)

Lemma run_state_returns (st : State) : exists st', run_state st = Some st'.
Proof. apply run_loop_terminates. apply Nat.le_refl. Qed.

Lemma run_body_fuel_mono (fuel fuel' : nat) (p : Point) (st st' : State) :
  fuel <= fuel' ->
  run_body fuel p st = Some st' -> run_body fuel' p st = Some st'.
Proof.
  intros Hle. unfold run_body.
  destruct (negb (inb p (visited st))); [| trivial].
  destruct (_ <? _)%Z; [trivial |].
  destruct (new_Cluster (appendVisited p st)) as [c st2].
  unfold expandCluster.
  destruct (expand_loop fuel c 0 _ _) as [r |] eqn:E; [| discriminate].
  now rewrite (expand_loop_fuel_mono c fuel fuel' Hle _ _ _ r E).
Qed.

Lemma run_loop_fuel_mono (fuel fuel' : nat) (todo : list Point)
    (st st' : State) :
  fuel <= fuel' ->
  run_loop fuel todo st = Some st' -> run_loop fuel' todo st = Some st'.
Proof.
  intros Hle. revert st.
  induction todo as [| p todo IH]; intros st H; simpl in *; [assumption |].
  destruct (run_body fuel p st) as [st1 |] eqn:E; [| discriminate].
  rewrite (run_body_fuel_mono fuel fuel' p st st1 Hle E). now apply IH.
Qed.

(** Any larger allowance gives the same final state: the result of [run]
    does not depend on the fuel of the model. *)
Lemma run_fuel_stable (fuel : nat) (st : State) :
  length (D st) <= fuel -> run_fuel fuel st = run_state st.
Proof.
  intros Hle. destruct (run_state_returns st) as [st' H]. rewrite H.
  now apply (run_loop_fuel_mono (length (D st)) fuel).
Qed.

Lemma expandCluster_neighbours (s : State) (pre : list Cluster) (C : Cluster)
    (p : Point) (fuel : nat) :
  Clusters s = pre ++ [C] -> length (D s) <= fuel ->
  exists N' s',
    expandCluster fuel p (regionQuery s p) (length pre) s = Some (N', s') /\
    extends_N0 s (regionQuery s p) N'.
Proof.
  intros HC Hfuel.
  destruct (expandCluster_terminates s pre C p fuel HC Hfuel) as [[N' s'] Hr].
  exists N', s'. split; [assumption |].
  unfold expandCluster in Hr. rewrite (addPoint_last s pre C p HC) in Hr.
  set (C1 := {| cid := cid C; pts := pts C ++ [p] |}) in *.
  set (s1 := set_Clusters (pre ++ [C1]) s) in *.
  assert (H : exists i, length N' <= i /\
                        (frame s1 pre (cid C1) s'
                         /\ extends_N0 s1 (regionQuery s p) N')).
  { apply (expand_loop_inv (length pre)
             (fun _ N t => frame s1 pre (cid C1) t
                           /\ extends_N0 s1 (regionQuery s p) N))
      with (fuel := fuel) (i := 0) (N := regionQuery s p) (st := s1)
           (r := (N', s')); [| | assumption].
    - intros i N t q [Hf He] _. split.
      + now apply frame_body.
      + now apply extends_N0_body with (k := cid C1).
    - split; [now apply frame_refl |].
      exists []. rewrite app_nil_r. split; [reflexivity |].
      split; [constructor | intros a []]. }
  destruct H as (_ & _ & _ & He). exact He.
Qed.

(** C7.  [run] terminates on every dataset and for all parameters.  The
    outer loop ranges over the dataset; [visited] ends without repetition
    and inside the dataset, hence no longer than the number of distinct
    points.  Each expansion loop ends within [length D] iterations: its
    neighbour list is the region query followed by distinct dataset points
    the query lacks, so it never grows beyond [length D].  A larger
    allowance of iterations changes nothing. *)
Theorem run_terminates (next_cid : Z) (D0 : list Point) (eps0 : Qc)
    (minPts0 : Z) :
  let st := DBSCAN_init next_cid D0 eps0 minPts0 in
  (exists st',
     run_state st = Some st' /\
     incl (visited st') D0 /\
     length (visited st') <= length (nodup point_eq_dec D0)) /\
  (forall fuel, length D0 <= fuel -> run_fuel fuel st = run_state st) /\
  (forall (s : State) (p : Point),
     exists N' s' A,
       expandCluster (length (D s)) p (regionQuery s p)
         (fst (new_Cluster s)) (snd (new_Cluster s)) = Some (N', s') /\
       N' = regionQuery s p ++ A /\ NoDup A /\
       (forall a, In a A -> In a (D s) /\ ~ In a (regionQuery s p)) /\
       length N' <= length (D s)).
Proof.
  intros st. split; [| split].
  - destruct (run_state_returns st) as [st' H]. exists st'.
    split; [assumption |].
    assert (Hwf : wf st').
    { apply (wf_run_loop (length (D st)) (D st) st st');
        [apply incl_refl | apply wf_init | assumption]. }
    destruct Hwf as (Hnd & Hin & _).
    apply run_loop_params in H as (HD & _). rewrite HD in Hin. simpl in Hin.
    split; [assumption |].
    apply NoDup_incl_length; [assumption |].
    intros q Hq. apply nodup_In. now apply Hin.
  - intros fuel Hfuel. now apply run_fuel_stable.
  - intros s p. unfold new_Cluster. simpl fst. simpl snd.
    set (C := {| cid := Cluster_cid s; pts := [] |}).
    set (s2 := set_Clusters _ _).
    destruct (expandCluster_neighbours s2 (Clusters s) C p (length (D s)))
      as (N' & s' & Hr & He); [reflexivity | apply Nat.le_refl |].
    pose proof (extends_N0_bound s2 p N' He) as Hb.
    destruct He as (A & HA & Hnd & HinA).
    exists N', s', A. repeat split; try assumption; now apply HinA.
Qed.

(** ** The visited list *)

Lemma absorb_visited (cs : list Cluster) (c : nat) (p : Point) (st : State) :
  visited (absorb cs c p st) = visited st.
Proof.
  induction cs as [| K cs IH]; simpl; [reflexivity |].
  destruct (negb (inb p (pts K))); [| assumption].
  now destruct (negb (inb p (pts_at c st))).
Qed.

Lemma expand_body_visited (c : nat) (p : Point) (N : list Point) (st : State) :
  visited (snd (expand_body c p N st)) = visit p (visited st).
Proof.
  unfold expand_body, visit. destruct (inb p (visited st)); simpl.
  - apply absorb_visited.
  - destruct (_ <=? _)%Z; simpl; apply absorb_visited.
Qed.

(** C8.  The visited list never holds a point twice: after any number [k]
    of iterations of [run]'s loop, and across every iteration of an
    expansion, whose only write to [visited] is "append [p] unless [p] is
    there".  A point is therefore appended, and its neighbourhood queried,
    at most once. *)
Theorem visited_never_repeats (next_cid : Z) (D0 : list Point) (eps0 : Qc)
    (minPts0 : Z) :
  (forall k, exists st',
     run_loop (length D0) (firstn k D0)
       (DBSCAN_init next_cid D0 eps0 minPts0) = Some st' /\
     NoDup (visited st')) /\
  (forall c p N st,
     visited (snd (expand_body c p N st))
     = (if inb p (visited st) then visited st else visited st ++ [p])) /\
  (forall c p N st,
     NoDup (visited st) -> NoDup (visited (snd (expand_body c p N st)))).
Proof.
  split; [| split].
  - intros k.
    set (st := DBSCAN_init next_cid D0 eps0 minPts0).
    destruct (run_loop_terminates (length D0) (firstn k D0) st (Nat.le_refl _))
      as [st' H].
    exists st'. split; [assumption |].
    apply (wf_run_loop (length D0) (firstn k D0) st st');
      [| apply wf_init | assumption].
    intros q Hq. simpl. rewrite <- (firstn_skipn k D0).
    apply in_or_app. now left.
  - intros c p N st. apply expand_body_visited.
  - intros c p N st H. rewrite expand_body_visited. now apply visit_NoDup.
Qed.

Lemma visited_never_repeats_witness :
  NoDup (visited (DBSCAN_init 0 [pnt "A" 0 0] (num 1 1) 1)) /\
  NoDup (visited (snd (expand_body 0 (pnt "A" 0 0) [pnt "A" 0 0]
                         (DBSCAN_init 0 [pnt "A" 0 0] (num 1 1) 1)))).
Proof.
  assert (H : NoDup (visited (DBSCAN_init 0 [pnt "A" 0 0] (num 1 1) 1)))
    by constructor.
  split; [exact H |].
  exact (proj2 (proj2 (visited_never_repeats 0 [pnt "A" 0 0] (num 1 1) 1))
           0 (pnt "A" 0 0) [pnt "A" 0 0]
           (DBSCAN_init 0 [pnt "A" 0 0] (num 1 1) 1) H).
Defined.

(** ** The partition of the dataset *)

Example border_first_run :
  dbscan 0 border_first (num 1 1) 3
  = Some ([ {| cid := 0; pts := [pnt "B" 1 0; pnt "A" 0 0; pnt "C" 2 0] |} ],
          [pnt "A" 0 0]).
Proof. vm_compute. reflexivity. Qed.

(** C1, as stated, fails: [A] is put on the noise list, then absorbed by
    the cluster of [B], and stays on the noise list; the output has four
    entries for three points. *)
Lemma partition_property_fails :
  exists r, dbscan 0 border_first (num 1 1) 3 = Some r /\
            In (pnt "A" 0 0) (snd r) /\
            clustered (fst r) (pnt "A" 0 0) /\
            ~ partition_property border_first r.
Proof.
  eexists. split; [apply border_first_run |]. simpl. split; [now left |]. split.
  - eexists. split; [now left |]. simpl. right. now left.
  - intros [H _]. specialize (H (pnt "A" 0 0) (or_introl eq_refl)).
    vm_compute in H. discriminate.
Qed.

Example shared_border_run :
  dbscan 0 shared_border (num 1 1) 4
  = Some ([ {| cid := 0;
               pts := [pnt "P" (-1) 0; pnt "a" (-2) 0; pnt "b" (-1) 1;
                       pnt "M" 0 0] |};
            {| cid := 1;
               pts := [pnt "Q" 1 0; pnt "M" 0 0; pnt "d" 2 0;
                       pnt "e" 1 1] |} ],
          []).
Proof. vm_compute. reflexivity. Qed.

Lemma in_entries (r : list Cluster * list Point) (q : Point) :
  In q (entries r) <-> clustered (fst r) q \/ In q (snd r).
Proof.
  unfold entries, clustered. rewrite in_app_iff, in_concat. split.
  - intros [(l & Hl & Hq) | H]; [left | now right].
    apply in_map_iff in Hl as (C & <- & HC). now exists C.
  - intros [(C & HC & Hq) | H]; [left | now right].
    exists (pts C). split; [now apply in_map | assumption].
Qed.

(** What the output of a run on a fresh engine always satisfies. *)
Lemma dbscan_output (next_cid : Z) (D0 : list Point) (eps0 : Qc)
    (minPts0 : Z) :
  exists r,
    dbscan next_cid D0 eps0 minPts0 = Some r /\
    (forall p, In p D0 -> In p (snd r) \/ clustered (fst r) p) /\
    (forall C, In C (fst r) -> NoDup (pts C)) /\
    NoDup (snd r) /\
    (forall p, In p (entries r) -> In p D0) /\
    length (nodup point_eq_dec D0) <= length (entries r).
Proof.
  set (st := DBSCAN_init next_cid D0 eps0 minPts0).
  destruct (run_state_returns st) as [st' H].
  exists (result st'). unfold dbscan, run. fold st. rewrite H.
  split; [reflexivity |].
  assert (Hwf : wf st').
  { apply (wf_run_loop (length (D st)) (D st) st st');
      [apply incl_refl | apply wf_init | assumption]. }
  destruct (run_loop_visited _ _ _ _ H) as [_ Hall].
  apply run_loop_params in H as (HD & _).
  destruct Hwf as (_ & HvD & Hn & Hnv & Hcl & Hcov).
  rewrite HD in HvD. simpl in HvD, Hall.
  assert (Hcover : forall p, In p D0 -> In p (snd (result st'))
                                        \/ clustered (fst (result st')) p).
  { intros p Hp. apply Hcov. now apply Hall. }
  split; [exact Hcover |].
  split; [intros C HC; now apply (Hcl C) |].
  split; [exact Hn |]. split.
  - intros p Hp. apply in_entries in Hp as [(C & HC & Hp) | Hp]; apply HvD.
    + now apply (Hcl C HC).
    + now apply Hnv.
  - apply NoDup_incl_length; [apply NoDup_nodup |].
    intros p Hp. apply nodup_In in Hp. apply in_entries.
    destruct (Hcover p Hp); [now right | now left].
Qed.

(** C1, amended.  After [run], every input point is on the noise list or in
    some cluster (none is omitted); no member list and not the noise list
    holds a point twice; every entry of the output is an input point; and
    the output has at least as many entries as the dataset has distinct
    points.  (A noise point that a later cluster absorbs stays on the noise
    list, so a point can have several entries.) *)
Theorem run_covers_dataset (next_cid : Z) (D0 : list Point) (eps0 : Qc)
    (minPts0 : Z) :
  exists r,
    dbscan next_cid D0 eps0 minPts0 = Some r /\
    (forall p, In p D0 -> In p (snd r) \/ clustered (fst r) p) /\
    (forall C, In C (fst r) -> NoDup (pts C)) /\
    NoDup (snd r) /\
    (forall p, In p (entries r) -> In p D0) /\
    length (nodup point_eq_dec D0) <= length (entries r).
Proof. apply dbscan_output. Qed.

Lemma run_covers_dataset_witness :
  exists r,
    dbscan 0 border_first (num 1 1) 3 = Some r /\
    (In (pnt "B" 1 0) (snd r) \/ clustered (fst r) (pnt "B" 1 0)).
Proof.
  destruct (run_covers_dataset 0 border_first (num 1 1) 3)
    as (r & Hr & Hcov & _).
  exists r. split; [exact Hr |]. apply Hcov. right. left. reflexivity.
Defined.

(** ** Parameters outside the documented range *)




(** ** The region query *)

Lemma regionQuery_self (st : State) (p : Point) :
  (0 <= eps st)%Qc -> In p (D st) -> In p (regionQuery st p).
Proof.
  intros He Hp. apply regionQuery_In. split; [assumption |].
  now rewrite sqdist_self.
Qed.

(** X4.  Neighbourhood is symmetric: for two points of the dataset, [b] is
    in the region query of [a] exactly when [a] is in the region query of
    [b]. *)
Lemma regionQuery_sym (st : State) (a b : Point) :
  In a (D st) -> In b (D st) ->
  (In b (regionQuery st a) <-> In a (regionQuery st b)).
Proof.
  intros Ha Hb. rewrite !regionQuery_In, (sqdist_sym a b). tauto.
Qed.

Lemma regionQuery_sym_witness :
  In (pnt "B" 1 0) (regionQuery (DBSCAN_init 0 border_first (num 1 1) 3)
                      (pnt "A" 0 0)) <->
  In (pnt "A" 0 0) (regionQuery (DBSCAN_init 0 border_first (num 1 1) 3)
                      (pnt "B" 1 0)).
Proof.
  apply (regionQuery_sym (DBSCAN_init 0 border_first (num 1 1) 3)
           (pnt "A" 0 0) (pnt "B" 1 0)).
  - simpl. left. reflexivity.
  - simpl. right. left. reflexivity.
Defined.

(** *** Binary64 arithmetic *)

Section FloatFacts.









End FloatFacts.

(** *** The comprehension *)

Section Query64.

Variable pow2 : float -> option float.



End Query64.




(** The comparison is on squared Euclidean distance, whatever the comments
    of the source call it: [B] is at Manhattan distance 2 from [A], more
    than [eps = 3/2], and still a neighbour ([1 + 1 <= 9/4]). *)
Example regionQuery_not_manhattan :
  regionQuery (DBSCAN_init 0 [pnt "A" 0 0; pnt "B" 1 1] (num 3 2) 2)
    (pnt "A" 0 0)
  = [pnt "A" 0 0; pnt "B" 1 1].
Proof. vm_compute. reflexivity. Qed.

(** ** The sign of the threshold *)

(** C9.  The constructor squares [eps]; runs with [eps] and with [-eps]
    return the same output. *)
Theorem eps_sign_unobservable (next_cid : Z) (D0 : list Point) (eps0 : Qc)
    (minPts0 : Z) :
  DBSCAN_init next_cid D0 (- eps0)%Qc minPts0
  = DBSCAN_init next_cid D0 eps0 minPts0 /\
  dbscan next_cid D0 (- eps0)%Qc minPts0 = dbscan next_cid D0 eps0 minPts0.
Proof.
  assert (H : DBSCAN_init next_cid D0 (- eps0)%Qc minPts0
              = DBSCAN_init next_cid D0 eps0 minPts0).
  { unfold DBSCAN_init. now rewrite Qc_square_opp. }
  split; [exact H |]. unfold dbscan. now rewrite H.
Qed.

(** ** The boundary of [minPts] *)

(** C6.  For a seed [p] not yet visited: if its region query has
    [minPts] points or more, the iteration appends a new cluster whose
    first member is [p] and leaves the noise list alone; if it has
    [minPts - 1] points or fewer, the iteration appends [p] to the noise
    list and leaves the clusters alone. *)
Theorem seed_classification (fuel : nat) (p : Point) (st : State) :
  length (D st) <= fuel ->
  inb p (visited st) = false ->
  ((minPts st <= Z.of_nat (length (regionQuery st p)))%Z ->
   exists st' X,
     run_body fuel p st = Some st' /\
     Clusters st'
     = Clusters st ++ [ {| cid := Cluster_cid st; pts := p :: X |} ] /\
     NOISE st' = NOISE st) /\
  ((Z.of_nat (length (regionQuery st p)) <= minPts st - 1)%Z ->
   exists st',
     run_body fuel p st = Some st' /\
     NOISE st' = NOISE st ++ [p] /\
     Clusters st' = Clusters st).
Proof.
  intros Hfuel Ev.
  destruct (run_body_terminates st p fuel Hfuel) as [st' H].
  pose proof (run_body_cases fuel p st st' H)
    as [[E _] | [(_ & Ec & ->) | (_ & Ec & Hex)]]; [congruence | |].
  - split; intros Hsize.
    + unfold core in Ec. apply Z.leb_gt in Ec. lia.
    + exists (appendNOISE p (appendVisited p st)). now repeat split.
  - split; intros Hsize.
    + destruct Hex as (_ & _ & Hn & N' & W & X & _ & _ & _ & _ & _ & HC & _).
      exists st', X. now repeat split.
    + unfold core in Ec. apply Z.leb_le in Ec. lia.
Qed.

Lemma seed_classification_witness :
  exists st' X,
    run_body 2 (pnt "A" 0 0)
      (DBSCAN_init 0 [pnt "A" 0 0; pnt "B" 1 0] (num 1 1) 2) = Some st' /\
    Clusters st' = [ {| cid := 0; pts := pnt "A" 0 0 :: X |} ] /\
    NOISE st' = [].
Proof.
  apply (seed_classification 2 (pnt "A" 0 0)
           (DBSCAN_init 0 [pnt "A" 0 0; pnt "B" 1 0] (num 1 1) 2)).
  - simpl. lia.
  - reflexivity.
  - vm_compute. discriminate.
Defined.

(** ** [minPts] at most 1 *)

(** C10.  With [minPts <= 1] the noise list is empty: a seed is a dataset
    point, it is in its own region query, so the query never has fewer
    than [minPts] points. *)
Theorem no_noise_when_minPts_le_1 (next_cid : Z) (D0 : list Point)
    (eps0 : Qc) (minPts0 : Z) :
  (minPts0 <= 1)%Z ->
  exists clusters, dbscan next_cid D0 eps0 minPts0 = Some (clusters, []).
Proof.
  intros Hm. set (st := DBSCAN_init next_cid D0 eps0 minPts0).
  destruct (run_state_returns st) as [st' H].
  exists (Clusters st'). unfold dbscan, run. fold st. rewrite H. simpl.
  unfold result. do 2 f_equal.
  assert (HI : same_params st st' /\ NOISE st' = []); [| apply HI].
  apply (run_loop_inv (length (D st))
           (fun s => same_params st s /\ NOISE s = []) (D st))
    with (st := st); [| split; [apply same_params_refl | reflexivity] | exact H].
  intros p s s' Hp [Hpar Hn] Hb. split.
  - eapply same_params_trans; [eassumption | now apply run_body_params in Hb].
  - apply run_body_cases in Hb as [[_ ->] | [(_ & Ec & ->) | (_ & _ & Hex)]].
    + assumption.
    + exfalso. rewrite (core_params st s p Hpar) in Ec.
      unfold core in Ec. apply Z.leb_gt in Ec.
      assert (Hself : In p (regionQuery st p)).
      { apply regionQuery_self; [apply Qc_square_nonneg | assumption]. }
      destruct (regionQuery st p); [destruct Hself |].
      simpl length in Ec. simpl minPts in Ec. lia.
    + destruct Hex as (_ & _ & -> & _). assumption.
Qed.

Lemma no_noise_when_minPts_le_1_witness :
  exists clusters,
    dbscan 0 [pnt "A" 0 0; pnt "B" 5 5] (num 1 1) 1 = Some (clusters, []).
Proof.
  apply (no_noise_when_minPts_le_1 0 [pnt "A" 0 0; pnt "B" 5 5] (num 1 1) 1).
  lia.
Defined.

(** ** Determinism up to cluster ids *)

Section Renumbering.

Variable d : Z.

Lemma pts_at_renumber (c : nat) (st : State) :
  pts_at c (renumber d st) = pts_at c st.
Proof.
  unfold pts_at. simpl. rewrite nth_error_map.
  now destruct (nth_error (Clusters st) c).
Qed.

Lemma addPoint_in_reid (c : nat) (p : Point) (cs : list Cluster) :
  addPoint_in c p (map (reid d) cs) = map (reid d) (addPoint_in c p cs).
Proof.
  revert c. induction cs as [| K cs IH]; intros c; simpl; [reflexivity |].
  destruct c; simpl; [reflexivity | now rewrite IH].
Qed.

Lemma addPoint_renumber (c : nat) (p : Point) (st : State) :
  addPoint c p (renumber d st) = renumber d (addPoint c p st).
Proof.
  unfold addPoint, renumber, set_Clusters. simpl.
  now rewrite addPoint_in_reid.
Qed.

Lemma absorb_renumber (cs : list Cluster) (c : nat) (p : Point) (st : State) :
  absorb (map (reid d) cs) c p (renumber d st) = renumber d (absorb cs c p st).
Proof.
  induction cs as [| K cs IH]; simpl; [reflexivity |].
  rewrite pts_at_renumber, IH, addPoint_renumber.
  destruct (negb (inb p (pts K))); [| reflexivity].
  now destruct (negb (inb p (pts_at c st))).
Qed.

Lemma expand_body_renumber (c : nat) (p : Point) (N : list Point)
    (st : State) :
  expand_body c p N (renumber d st)
  = (fst (expand_body c p N st), renumber d (snd (expand_body c p N st))).
Proof.
  unfold expand_body. simpl visited. destruct (negb (inb p (visited st))).
  - change (regionQuery (appendVisited p (renumber d st)) p)
      with (regionQuery (appendVisited p st) p).
    change (minPts (appendVisited p (renumber d st)))
      with (minPts (appendVisited p st)).
    destruct (_ <=? _)%Z; simpl fst; simpl snd; f_equal;
      apply (absorb_renumber (Clusters st) c p (appendVisited p st)).
  - simpl fst. simpl snd. f_equal. apply (absorb_renumber (Clusters st)).
Qed.

Lemma expand_loop_renumber (fuel c i : nat) (N : list Point) (st : State) :
  expand_loop fuel c i N (renumber d st)
  = option_map (renumber_result d) (expand_loop fuel c i N st).
Proof.
  revert i N st. induction fuel as [| fuel IH]; intros i N st; simpl.
  - now destruct (nth_error N i).
  - destruct (nth_error N i) as [p |]; [| reflexivity].
    rewrite expand_body_renumber.
    destruct (expand_body c p N st) as [N' st']. simpl. apply IH.
Qed.

Lemma run_body_renumber (fuel : nat) (p : Point) (st : State) :
  run_body fuel p (renumber d st) = option_map (renumber d) (run_body fuel p st).
Proof.
  unfold run_body. simpl visited. destruct (negb (inb p (visited st)));
    [| reflexivity].
  change (regionQuery (appendVisited p (renumber d st)) p)
    with (regionQuery (appendVisited p st) p).
  change (minPts (appendVisited p (renumber d st)))
    with (minPts (appendVisited p st)).
  destruct (_ <? _)%Z; [reflexivity |].
  unfold new_Cluster, expandCluster.
  set (st2 := set_Clusters (Clusters (appendVisited p st) ++ _)
                (set_Cluster_cid _ (appendVisited p st))).
  assert (E : set_Clusters
                (Clusters (appendVisited p (renumber d st))
                 ++ [ {| cid := Cluster_cid (appendVisited p (renumber d st));
                         pts := [] |} ])
                (set_Cluster_cid
                   (Cluster_cid (appendVisited p (renumber d st)) + 1)%Z
                   (appendVisited p (renumber d st)))
              = renumber d st2).
  { unfold renumber, st2, set_Clusters, set_Cluster_cid. simpl.
    rewrite map_app. simpl. f_equal. lia. }
  rewrite E.
  replace (length (Clusters (appendVisited p (renumber d st))))
    with (length (Clusters (appendVisited p st)))
    by (simpl; now rewrite length_map).
  rewrite addPoint_renumber, expand_loop_renumber.
  match goal with
  | |- option_map snd (option_map _ ?x) = option_map _ (option_map snd ?y) =>
      change y with x; destruct x; reflexivity
  end.
Qed.

Lemma run_loop_renumber (fuel : nat) (todo : list Point) (st : State) :
  run_loop fuel todo (renumber d st)
  = option_map (renumber d) (run_loop fuel todo st).
Proof.
  revert st. induction todo as [| p todo IH]; intros st; simpl; [reflexivity |].
  rewrite run_body_renumber.
  destruct (run_body fuel p st) as [st1 |]; simpl; [apply IH | reflexivity].
Qed.

Lemma map_pts_reid (cs : list Cluster) : map pts (map (reid d) cs) = map pts cs.
Proof. rewrite map_map. now apply map_ext. Qed.

End Renumbering.

Lemma numbered_body (c0 : Z) (fuel : nat) (p : Point) (st st' : State) :
  numbered c0 st -> run_body fuel p st = Some st' -> numbered c0 st'.
Proof.
  intros Hn H.
  apply run_body_cases in H as [[_ ->] | [(_ & _ & ->) | (_ & _ & H)]];
    [assumption | assumption |].
  destruct Hn as [Hids Hc].
  destruct H as (_ & Hcid & _ & N' & W & X & _ & _ & _ & _ & _ & HC & _).
  unfold numbered. rewrite HC, Hcid, map_app, length_app, Hids. simpl.
  rewrite Nat.add_1_r. unfold ids. rewrite seq_S, map_app. simpl.
  split; [now rewrite Hc | lia].
Qed.

(** What two runs on the same input share, whatever the id counter holds
    when each starts. *)
Lemma dbscan_renumber (c1 c2 : Z) (D0 : list Point) (eps0 : Qc) (minPts0 : Z) :
  exists st1,
    run_state (DBSCAN_init c1 D0 eps0 minPts0) = Some st1 /\
    run_state (DBSCAN_init c2 D0 eps0 minPts0)
    = Some (renumber (c2 - c1) st1) /\
    numbered c1 st1.
Proof.
  destruct (run_state_returns (DBSCAN_init c1 D0 eps0 minPts0)) as [st1 H1].
  exists st1. split; [assumption |]. split.
  - replace (DBSCAN_init c2 D0 eps0 minPts0)
      with (renumber (c2 - c1) (DBSCAN_init c1 D0 eps0 minPts0))
      by (unfold renumber, DBSCAN_init; simpl; f_equal; lia).
    unfold run_state, run_fuel in *. simpl D in *.
    rewrite run_loop_renumber, H1. reflexivity.
  - unfold run_state, run_fuel in H1.
    apply (run_loop_inv _ (numbered c1) _
             (fun q s s' _ => numbered_body c1 _ q s s') _ st1) in H1;
      [assumption |].
    split; [reflexivity | simpl; lia].
Qed.

(** C4.  Two runs on the same dataset and parameters, started with the id
    counter at [c1] and at [c2], return the same sequence of member lists
    and the same noise list; the cluster ids are the consecutive values of
    the counter from [c1], respectively from [c2]. *)
Theorem run_deterministic (c1 c2 : Z) (D0 : list Point) (eps0 : Qc)
    (minPts0 : Z) :
  exists clusters1 clusters2 noise,
    dbscan c1 D0 eps0 minPts0 = Some (clusters1, noise) /\
    dbscan c2 D0 eps0 minPts0 = Some (clusters2, noise) /\
    map pts clusters1 = map pts clusters2 /\
    map cid clusters1 = ids c1 (length clusters1) /\
    map cid clusters2 = ids c2 (length clusters1).
Proof.
  destruct (dbscan_renumber c1 c2 D0 eps0 minPts0) as (st1 & H1 & H2 & Hn & _).
  exists (Clusters st1), (map (reid (c2 - c1)) (Clusters st1)), (NOISE st1).
  unfold dbscan, run. rewrite H1, H2. simpl.
  split; [reflexivity |]. split; [reflexivity |].
  split; [now rewrite map_pts_reid |]. split; [assumption |].
  rewrite map_map. simpl.
  rewrite <- (map_map cid (fun z => (z + (c2 - c1))%Z)), Hn.
  unfold ids. rewrite map_map. apply map_ext. intros i. lia.
Qed.

Example ids_differ :
  dbscan 0 border_first (num 1 1) 2
  = Some ([ {| cid := 0; pts := border_first |} ], []) /\
  dbscan 7 border_first (num 1 1) 2
  = Some ([ {| cid := 7; pts := border_first |} ], []).
Proof. split; vm_compute; reflexivity. Qed.

(** A second call of [run] on the same engine object finds every point
    visited and returns the lists as they are. *)
Lemma run_loop_all_visited (fuel : nat) (todo : list Point) (st : State) :
  incl todo (visited st) -> run_loop fuel todo st = Some st.
Proof.
  induction todo as [| p todo IH]; intros H; simpl; [reflexivity |].
  unfold run_body.
  assert (Hp : inb p (visited st) = true) by (apply inb_In, H; now left).
  rewrite Hp. simpl. apply IH. intros q Hq. apply H. now right.
Qed.

Lemma run_again (st st' : State) :
  run_state st = Some st' -> run_state st' = Some st'.
Proof.
  intros H. unfold run_state, run_fuel in *.
  destruct (run_loop_visited _ _ _ _ H) as [_ Hall].
  apply run_loop_params in H as (HD & _). rewrite HD.
  now apply run_loop_all_visited.
Qed.

(** ** Noise against the threshold *)

Section Closure.

Lemma closed_body (fuel : nat) (p : Point) (st st' : State) :
  closed st -> run_body fuel p st = Some st' -> closed st'.
Proof.
  intros Hcl H.
  apply run_body_cases in H as [[_ ->] | [(_ & Ec & ->) | (_ & _ & H)]];
    [assumption | |].
  - intros q Hq Hcore a Ha. simpl in *.
    change (core (appendNOISE p (appendVisited p st)) q) with (core st q) in Hcore.
    change (regionQuery (appendNOISE p (appendVisited p st)) q)
      with (regionQuery st q) in Ha.
    apply in_or_app. left.
    apply in_app_or in Hq as [Hq | [<- | []]]; [| congruence].
    now apply (Hcl q Hq Hcore).
  - destruct H as (Hpar & _ & _ & N' & W & X & _ & HV & _ & HNV & _ & _ & _
                   & _ & _ & Hm & _).
    intros q Hq Hcore a Ha.
    rewrite (core_params st st' q Hpar) in Hcore.
    rewrite (regionQuery_params st st' q Hpar) in Ha.
    destruct (Hm q Hq Hcore) as [Hold | Hnew].
    + rewrite HV. apply in_or_app. left. now apply (Hcl q Hold Hcore).
    + apply HNV. now apply Hnew.
Qed.

(** The points visited by an iteration lie in every set that holds the
    points visited before and the seed, and is closed under "neighbour of
    a core point". *)
Lemma run_body_within (fuel : nat) (p : Point) (st st' : State)
    (R : Point -> Prop) :
  run_body fuel p st = Some st' ->
  closed_under_core st R ->
  (forall a, In a (visited st) -> R a) -> R p ->
  forall a, In a (visited st') -> R a.
Proof.
  intros H HR HV Rp.
  apply run_body_cases in H as [[_ ->] | [(_ & _ & ->) | (_ & Ec & H)]];
    [assumption | |].
  - simpl. intros a Ha.
    apply in_app_or in Ha as [Ha | [<- | []]]; [now apply HV | assumption].
  - destruct H as (_ & _ & _ & N' & W & X & _ & _ & _ & _ & _ & _ & _ & _ & _
                   & _ & Hs).
    apply (Hs R HR HV Rp). now apply (HR p Rp Ec).
Qed.

Lemma run_body_noise (fuel : nat) (p : Point) (st st' : State) :
  run_body fuel p st = Some st' ->
  NOISE st' = NOISE st \/
  (NOISE st' = NOISE st ++ [p] /\
   inb p (visited st) = false /\ core st p = false).
Proof.
  intros H.
  apply run_body_cases in H as [[_ ->] | [(Ev & Ec & ->) | (_ & _ & H)]].
  - now left.
  - right. now repeat split.
  - left. apply H.
Qed.

End Closure.

Section Monotonicity.

Lemma filter_length_le (f g : Point -> bool) (l : list Point) :
  (forall x, f x = true -> g x = true) ->
  length (filter f l) <= length (filter g l).
Proof.
  intros H. induction l as [| x l IH]; simpl; [apply Nat.le_refl |].
  destruct (f x) eqn:Ef.
  - rewrite (H x Ef). simpl. lia.
  - destruct (g x); simpl; lia.
Qed.

Lemma regionQuery_mono (s1 s2 : State) (q : Point) :
  coarser s1 s2 -> incl (regionQuery s1 q) (regionQuery s2 q).
Proof.
  intros (HD & _ & He) a Ha. apply regionQuery_In in Ha as [Ha Hd].
  apply regionQuery_In. rewrite HD. split; [assumption |].
  eapply Qcle_trans; eassumption.
Qed.

Lemma core_mono (s1 s2 : State) (q : Point) :
  coarser s1 s2 -> core s1 q = true -> core s2 q = true.
Proof.
  intros (HD & Hm & He) H. unfold core in *. apply Z.leb_le in H.
  apply Z.leb_le. rewrite Hm.
  assert (Hlen : length (regionQuery s1 q) <= length (regionQuery s2 q)).
  { unfold regionQuery. rewrite HD. apply filter_length_le.
    intros x Hx. apply Qc_le_bool_iff in Hx. apply Qc_le_bool_iff.
    eapply Qcle_trans; eassumption. }
  lia.
Qed.

Lemma coarser_body (fuel : nat) (p : Point) (s1 s2 t1 t2 : State) :
  coarser s1 s2 ->
  run_body fuel p s1 = Some t1 -> run_body fuel p s2 = Some t2 ->
  coarser t1 t2.
Proof.
  intros (HD & Hm & He) H1 H2.
  apply run_body_params in H1 as (HD1 & Hm1 & He1).
  apply run_body_params in H2 as (HD2 & Hm2 & He2).
  unfold coarser. rewrite HD1, HD2, Hm1, Hm2, He1, He2. now repeat split.
Qed.

Lemma ahead_body (fuel : nat) (p : Point) (s1 s2 t1 t2 : State) :
  ahead s1 s2 ->
  run_body fuel p s1 = Some t1 -> run_body fuel p s2 = Some t2 ->
  ahead t1 t2.
Proof.
  intros (Hco & Hcl & Hv & Hn) H1 H2.
  pose proof (closed_body fuel p s2 t2 Hcl H2) as Hcl2.
  pose proof (run_body_visited fuel p s2 t2 H2) as [[W2 HW2] Hp2].
  pose proof (run_body_params fuel p s2 t2 H2) as Hpar2.
  split; [now apply (coarser_body fuel p s1 s2) |]. split; [assumption |].
  split.
  - intros a Ha.
    apply (run_body_within fuel p s1 t1 (fun a => In a (visited t2)) H1);
      try assumption.
    + intros q Hq Hcore b Hb.
      apply (core_mono s1 s2 q Hco) in Hcore.
      apply (regionQuery_mono s1 s2 q Hco) in Hb.
      rewrite <- (core_params s2 t2 q Hpar2) in Hcore.
      rewrite <- (regionQuery_params s2 t2 q Hpar2) in Hb.
      now apply (Hcl2 q Hq Hcore).
    + intros b Hb. rewrite HW2. apply in_or_app. left. now apply Hv.
  - assert (Hn1 : incl (NOISE s1) (NOISE t1)).
    { destruct (run_body_noise fuel p s1 t1 H1) as [-> | [-> _]];
        [apply incl_refl | intros a Ha; apply in_or_app; now left]. }
    destruct (run_body_noise fuel p s2 t2 H2) as [-> | (-> & Ev2 & Ec2)].
    + intros a Ha. apply Hn1. now apply Hn.
    + intros a Ha. apply in_app_or in Ha as [Ha | [<- | []]];
        [apply Hn1; now apply Hn |].
      destruct (run_body_cases fuel p s1 t1 H1)
        as [[Ev1 _] | [(_ & _ & ->) | (_ & Ec1 & _)]].
      * apply inb_In in Ev1. apply Hv in Ev1. apply inb_In in Ev1. congruence.
      * simpl. apply in_or_app. right. now left.
      * apply (core_mono s1 s2 p Hco) in Ec1. congruence.
Qed.

Lemma ahead_run_loop (fuel : nat) (todo : list Point) (s1 s2 t1 t2 : State) :
  ahead s1 s2 ->
  run_loop fuel todo s1 = Some t1 -> run_loop fuel todo s2 = Some t2 ->
  ahead t1 t2.
Proof.
  revert s1 s2. induction todo as [| p todo IH]; intros s1 s2 Ha H1 H2;
    simpl in *.
  - injection H1 as <-. injection H2 as <-. assumption.
  - destruct (run_body fuel p s1) as [u1 |] eqn:E1; [| discriminate].
    destruct (run_body fuel p s2) as [u2 |] eqn:E2; [| discriminate].
    apply (IH u1 u2); try assumption.
    now apply (ahead_body fuel p s1 s2).
Qed.

End Monotonicity.

(** C5.  For a fixed dataset and [minPts], and thresholds
    [0 <= eps1 <= eps2], the noise list of the run with [eps2] holds only
    points of the noise list of the run with [eps1], and is no longer. *)
Theorem noise_monotone_in_eps (c1 c2 : Z) (D0 : list Point) (minPts0 : Z)
    (eps1 eps2 : Qc) :
  (0 <= eps1)%Qc -> (eps1 <= eps2)%Qc ->
  exists r1 r2,
    dbscan c1 D0 eps1 minPts0 = Some r1 /\
    dbscan c2 D0 eps2 minPts0 = Some r2 /\
    incl (snd r2) (snd r1) /\
    length (snd r2) <= length (snd r1).
Proof.
  intros H0 Hle.
  set (s1 := DBSCAN_init c1 D0 eps1 minPts0).
  set (s2 := DBSCAN_init c2 D0 eps2 minPts0).
  destruct (run_state_returns s1) as [t1 H1].
  destruct (run_state_returns s2) as [t2 H2].
  exists (result t1), (result t2). unfold dbscan, run. fold s1 s2.
  rewrite H1, H2. split; [reflexivity |]. split; [reflexivity |].
  assert (Hah : ahead t1 t2).
  { apply (ahead_run_loop (length D0) D0 s1 s2 t1 t2);
      [| exact H1 | exact H2].
    split; [| split; [| split]].
    - split; [reflexivity |]. split; [reflexivity |].
      simpl. now apply Qc_square_mono.
    - intros q [].
    - intros q [].
    - intros q []. }
  destruct Hah as (_ & _ & _ & Hn).
  assert (Hwf : wf t2).
  { apply (wf_run_loop (length (D s2)) (D s2) s2 t2);
      [apply incl_refl | apply wf_init | exact H2]. }
  destruct Hwf as (_ & _ & Hnd & _).
  split; [exact Hn |]. now apply NoDup_incl_length.
Qed.

Lemma noise_monotone_in_eps_witness :
  exists r1 r2,
    dbscan 0 border_first (num 1 1) 3 = Some r1 /\
    dbscan 1 border_first (num 2 1) 3 = Some r2 /\
    incl (snd r2) (snd r1) /\
    length (snd r2) <= length (snd r1).
Proof.
  apply (noise_monotone_in_eps 0 1 border_first 3 (num 1 1) (num 2 1)).
  - vm_compute. discriminate.
  - vm_compute. discriminate.
Defined.

Example noise_shrinks :
  option_map snd (dbscan 0 border_first (num 1 1) 3) = Some [pnt "A" 0 0] /\
  option_map snd (dbscan 0 border_first (num 2 1) 3) = Some [].
Proof. split; vm_compute; reflexivity. Qed.

(** * Further properties *)

(** ** Where cluster members come from *)

Section Provenance.

Lemma reachable_params (st st' : State) (s a : Point) :
  same_params st st' -> reachable st s a -> reachable st' s a.
Proof.
  intros Hpar H. induction H as [| q a _ IH Hc Ha]; [constructor |].
  apply (reach_step st' s q a); [assumption | |].
  - now rewrite (core_params st st' q Hpar).
  - now rewrite (regionQuery_params st st' q Hpar).
Qed.

Lemma same_params_sym (st st' : State) :
  same_params st st' -> same_params st' st.
Proof. intros (? & ? & ?). now repeat split. Qed.

Lemma sourced_body (st0 : State) (pre : list Cluster) (V0 : list Point)
    (s : Point) (N : list Point) (st : State) (i : nat) (p : Point) :
  sourced st0 pre V0 s N st -> nth_error N i = Some p ->
  sourced st0 pre V0 s (fst (expand_body (length pre) p N st))
                       (snd (expand_body (length pre) p N st)).
Proof.
  intros (Hpar & (C & HC) & HV0 & Hsrc) Hp.
  rewrite (expand_body_last st pre C p N HC). simpl.
  destruct (grow_spec st p N) as (A & -> & _ & HA & _).
  split; [apply Hpar |]. split; [now exists (take_in p C) |]. split.
  { intros a Ha. apply visit_In. right. now apply HV0. }
  intros a Ha. apply in_app_or in Ha as [Ha | Ha].
  - destruct (Hsrc a Ha) as (w & Hw & Hrest).
    exists w. split; [apply visit_In; now right | assumption].
  - apply HA in Ha as (Hq & _ & Ev & Hcore).
    rewrite (regionQuery_params st0 st p Hpar) in Hq.
    rewrite (core_params st0 st p Hpar) in Hcore.
    exists p. split; [apply visit_In; now left |]. split.
    + intros Hin. apply HV0 in Hin. apply inb_In in Hin. congruence.
    + split; [assumption |]. split; [assumption |].
      destruct (Hsrc p (nth_error_In N i Hp)) as (w & _ & _ & Hcw & Hpw & Hrw).
      now apply (reach_step st0 s w p).
Qed.

Lemma expandCluster_founded (fuel : nat) (st : State) (p : Point)
    (r : list Point * State) :
  inb p (visited st) = false -> core st p = true ->
  expandCluster fuel p (regionQuery st p) (length (Clusters st))
    (snd (new_Cluster (appendVisited p st))) = Some r ->
  founded st p (snd r).
Proof.
  intros Ev Ecore.
  unfold expandCluster, new_Cluster. simpl snd.
  set (st2 := set_Clusters _ _).
  set (C0 := {| cid := Cluster_cid st; pts := [p] |}).
  assert (HC2 : Clusters st2
                = Clusters st ++ [ {| cid := Cluster_cid st; pts := [] |} ])
    by reflexivity.
  rewrite (addPoint_last st2 (Clusters st) _ p HC2). simpl app.
  set (st0 := set_Clusters _ st2). intros Hrun.
  assert (HC0 : Clusters st0 = Clusters st ++ [C0]) by reflexivity.
  assert (Hpar0 : same_params st st0) by (now repeat split).
  assert (H : exists i, length (fst r) <= i /\
                (exp_inv st0 (Clusters st) C0 (regionQuery st p) i (fst r) (snd r)
                 /\ sourced st0 (Clusters st) (visited st) p (fst r) (snd r))).
  { apply (expand_loop_inv (length (Clusters st))
             (fun i N s =>
                exp_inv st0 (Clusters st) C0 (regionQuery st p) i N s
                /\ sourced st0 (Clusters st) (visited st) p N s))
      with (fuel := fuel) (i := 0) (N := regionQuery st p) (st := st0);
      [| | assumption].
    - intros i N s q [He Hs] Hq. split.
      + now apply exp_inv_body.
      + now apply (sourced_body st0 (Clusters st) (visited st) p N s i q).
    - split; [now apply exp_inv_init |].
      split; [apply same_params_refl |]. split; [now exists C0 |]. split.
      + simpl. intros a Ha. apply in_or_app. now left.
      + intros a Ha. exists p. split; [simpl; apply in_or_app; right; now left |].
        split; [now apply inb_not_In |]. split; [assumption |].
        split; [assumption | constructor]. }
  destruct H as (i' & Hi' & (Hf & He & Hv & Hc & Hm) & (_ & _ & _ & Hsrc)).
  destruct r as [N' st']. simpl in *.
  destruct Hf as (Hpar & Hcid & Hnoise & C & HC & Hk).
  rewrite (pts_at_last st' (Clusters st) C HC) in Hc.
  apply (tracks_exit _ _ _ _ Hi') in Hv as ((W & HW & HWN) & Hvnd & HNv).
  apply (tracks_exit _ _ _ _ Hi') in Hc as ((X & HX & HXN) & Hcnd & HNc).
  assert (Hvis : visited st' = visited st ++ p :: W).
  { rewrite HW. simpl. now rewrite <- app_assoc. }
  assert (Hpts : pts C = p :: X) by exact HX.
  split; [exact Hpar |]. split; [exact Hnoise |].
  exists N', W, X.
  split; [exact Hvis |]. split.
  { rewrite HC. f_equal. destruct C as [kC pC]. simpl in *. now subst. }
  split.
  { rewrite <- Hpts. apply Hcnd. constructor; [intros [] | constructor]. }
  split; [exact HXN |]. split; [now rewrite <- Hpts |].
  split; [exact HWN |]. split; [exact HNv |]. split.
  { destruct He as (A & -> & _). intros a Ha. apply in_or_app. now left. }
  split.
  - intros q Hq Hcore.
    destruct (in_dec point_eq_dec q (visited st0)) as [Hin | Hout].
    + simpl in Hin. apply in_app_or in Hin as [Hin | [<- | []]]; [now left |].
      right. destruct He as (A & -> & _). intros a Ha. apply in_or_app. now left.
    + right. apply (Hm q Hq Hout). now rewrite (core_params st st0 q Hpar0).
  - intros a Ha. destruct (Hsrc a Ha) as (w & Hw & Hnw & Hcw & Haw & Hrw).
    exists w. split; [assumption |]. split; [assumption |].
    split; [assumption |]. split; [assumption |].
    apply (reachable_params st0 st p w); [| assumption].
    now apply same_params_sym.
Qed.

Lemma run_body_cases_founded (fuel : nat) (p : Point) (st st' : State) :
  run_body fuel p st = Some st' ->
  (inb p (visited st) = true /\ st' = st) \/
  (inb p (visited st) = false /\ core st p = false /\
   st' = appendNOISE p (appendVisited p st)) \/
  (inb p (visited st) = false /\ core st p = true /\ founded st p st').
Proof.
  unfold run_body. destruct (inb p (visited st)) eqn:Ev; simpl.
  - intros H. injection H as <-. now left.
  - change (regionQuery (appendVisited p st) p) with (regionQuery st p).
    change (minPts (appendVisited p st)) with (minPts st).
    rewrite noise_test_core. destruct (core st p) eqn:Ec; simpl.
    + intros H. right. right. split; [reflexivity |]. split; [reflexivity |].
      destruct (expandCluster fuel p (regionQuery st p) (length (Clusters st)) _)
        as [r |] eqn:Er; [| discriminate].
      simpl in H. injection H as <-.
      now apply (expandCluster_founded fuel st p r).
    + intros H. injection H as <-. right. left. now repeat split.
Qed.

End Provenance.

(** ** Clusters and density *)

Section Density.

Lemma seeded_params (st st' : State) :
  same_params st st' -> Clusters st' = Clusters st -> seeded st -> seeded st'.
Proof.
  intros Hpar HC Hs C HinC. rewrite HC in HinC.
  destruct (Hs C HinC) as (s & X & Hpts & Hcore & Hiff).
  exists s, X. split; [assumption |]. split.
  - now rewrite (core_params st st' s Hpar).
  - intros a. rewrite (Hiff a). split; apply reachable_params;
      [assumption | now apply same_params_sym].
Qed.

Lemma inb_snoc_other (q p : Point) (v : list Point) :
  q <> p -> inb q (v ++ [p]) = inb q v.
Proof.
  intros Hne. destruct (inb q v) eqn:E.
  - apply inb_In. apply in_or_app. left. now apply inb_In.
  - apply inb_not_In. intros H. apply inb_not_In in E.
    apply in_app_or in H as [H | [H | []]]; [contradiction | congruence].
Qed.

Lemma all_members_snoc (cs : list Cluster) (C : Cluster) :
  all_members (cs ++ [C]) = all_members cs ++ pts C.
Proof.
  unfold all_members. rewrite map_app, concat_app. simpl.
  now rewrite app_nil_r.
Qed.

(** A core point visited before an expansion is not absorbed by it. *)
Lemma founded_spares_old_core (st st' : State) (p q : Point)
    (N' : list Point) :
  closed st -> incl (visited st') (D st) ->
  (forall a, In a N' ->
     exists w, In w (visited st') /\ ~ In w (visited st) /\
               core st w = true /\ In a (regionQuery st w) /\
               reachable st p w) ->
  core st q = true -> In q (visited st) -> ~ In q N'.
Proof.
  intros Hcl HvD Hsrc Hcore Hq HqN.
  destruct (Hsrc q HqN) as (w & Hw & Hnw & _ & Hqw & _).
  apply Hnw. apply (Hcl q Hq Hcore).
  apply regionQuery_In in Hqw as [_ Hd].
  apply regionQuery_In. split; [now apply HvD |].
  now rewrite sqdist_sym.
Qed.

Lemma solid_body (fuel : nat) (p : Point) (st st' : State) :
  In p (D st) -> solid st -> run_body fuel p st = Some st' -> solid st'.
Proof.
  intros HpD (Hwf & Hcl & Hseed & Honce & Hsparse) H.
  pose proof (wf_body fuel p st st' HpD Hwf H) as Hwf'.
  pose proof (closed_body fuel p st st' Hcl H) as Hcl'.
  pose proof (run_body_params fuel p st st' H) as Hpar.
  split; [assumption |]. split; [assumption |].
  apply run_body_cases_founded in H
    as [[_ ->] | [(Ev & Ec & ->) | (Ev & Ec & Hf)]].
  - now repeat split.
  - split; [| split].
    + now apply (seeded_params st).
    + intros q Hq. change (core st q = true) in Hq. simpl.
      rewrite inb_snoc_other by congruence. now apply Honce.
    + intros q Hq. simpl in Hq. change (core st q = false).
      apply in_app_or in Hq as [Hq | [<- | []]]; [now apply Hsparse | assumption].
  - destruct Hf as (_ & Hnoise & N' & W & X & Hvis & HC & HndX & HXN & HNX
                    & HWN & HNV & HrqN & Hclo & Hsrc).
    assert (HvD : incl (visited st') (D st)).
    { destruct Hwf' as (_ & HvD & _). destruct Hpar as (HD & _).
      now rewrite HD in HvD. }
    assert (Hp' : ~ In p (visited st)) by now apply inb_not_In.
    assert (HpXv : incl (p :: X) (visited st')).
    { intros a [<- | Ha].
      - rewrite Hvis. apply in_or_app. right. now left.
      - apply HNV. now apply HXN. }
    assert (Kold : forall q, core st q = true -> In q (visited st) ->
                             ~ In q (p :: X)).
    { intros q Hcore Hq [<- | HqX]; [contradiction |].
      apply (founded_spares_old_core st st' p q N' Hcl HvD Hsrc Hcore Hq).
      now apply HXN. }
    assert (Knew : forall q, core st q = true -> In q (p :: X) ->
                             incl (regionQuery st q) (p :: X)).
    { intros q Hcore HqX a Ha. apply HNX.
      destruct (Hclo q (HpXv q HqX) Hcore) as [Hold | Hnew];
        [| now apply Hnew].
      exfalso. now apply (Kold q Hcore Hold). }
    split; [| split].
    + intros C HinC. rewrite HC in HinC.
      apply in_app_or in HinC as [HinC | [<- | []]].
      * destruct (Hseed C HinC) as (s & Y & Hpts & Hcore & Hiff).
        exists s, Y. split; [assumption |]. split.
        -- now rewrite (core_params st st' s Hpar).
        -- intros a. rewrite (Hiff a). split; apply reachable_params;
             [assumption | now apply same_params_sym].
      * exists p, X. split; [reflexivity |]. split.
        -- now rewrite (core_params st st' p Hpar).
        -- simpl pts. intros a. split.
           ++ intros Ha. apply (reachable_params st st' p a Hpar).
              destruct Ha as [<- | Ha]; [constructor |].
              destruct (Hsrc a (HXN a Ha)) as (w & _ & _ & Hcw & Haw & Hrw).
              now apply (reach_step st p w a).
           ++ intros Ha.
              apply (reachable_params st' st p a (same_params_sym _ _ Hpar)) in Ha.
              induction Ha as [| q a _ IH Hcq Haq]; [now left |].
              now apply (Knew q Hcq IH).
    + intros q Hq. rewrite (core_params st st' q Hpar) in Hq.
      rewrite HC, all_members_snoc, count_occ_app, (Honce q Hq). simpl pts.
      destruct (inb q (visited st)) eqn:Eq.
      * apply inb_In in Eq.
        assert (E1 : inb q (visited st') = true).
        { apply inb_In. rewrite Hvis. apply in_or_app. now left. }
        rewrite E1.
        assert (E0 : count_occ point_eq_dec (p :: X) q = 0).
        { apply count_occ_not_In. now apply Kold. }
        rewrite E0. reflexivity.
      * apply inb_not_In in Eq.
        destruct (in_dec point_eq_dec q (p :: X)) as [Hin | Hout].
        -- assert (E1 : inb q (visited st') = true).
           { apply inb_In. now apply HpXv. }
           rewrite E1.
           apply (proj1 (NoDup_count_occ' point_eq_dec (p :: X)) HndX q) in Hin.
           rewrite Hin. reflexivity.
        -- assert (E1 : inb q (visited st') = false).
           { apply inb_not_In. rewrite Hvis. intros Hq'.
             apply in_app_or in Hq' as [Hq' | [<- | Hq']];
               [contradiction | apply Hout; now left |].
             apply Hout. apply HNX. now apply HWN. }
           rewrite E1.
           apply (count_occ_not_In point_eq_dec) in Hout. rewrite Hout.
           reflexivity.
    + intros q Hq. rewrite Hnoise in Hq.
      rewrite (core_params st st' q Hpar). now apply Hsparse.
Qed.

Lemma solid_init (c0 : Z) (D0 : list Point) (e : Qc) (m : Z) :
  solid (DBSCAN_init c0 D0 e m).
Proof.
  split; [apply wf_init |]. split; [intros q [] |]. split; [intros C [] |].
  split; [| intros q []].
  intros q _. reflexivity.
Qed.

Lemma solid_run_loop (fuel : nat) (todo : list Point) (st st' : State) :
  incl todo (D st) -> solid st -> run_loop fuel todo st = Some st' -> solid st'.
Proof.
  intros Htodo Hs Hrun.
  assert (H : same_params st st' /\ solid st'); [| apply H].
  apply (run_loop_inv fuel (fun s => same_params st s /\ solid s) todo)
    with (st := st); [| split; [apply same_params_refl | assumption] | assumption].
  intros p s s' Hp [Hpar Hsol] Hb. split.
  - eapply same_params_trans; [eassumption | now apply run_body_params in Hb].
  - apply (solid_body fuel p s s'); try assumption.
    destruct Hpar as (-> & _). now apply Htodo.
Qed.

(** The final state of a run on a fresh engine. *)
Lemma run_state_solid (c0 : Z) (D0 : list Point) (e : Qc) (m : Z) :
  exists st',
    run_state (DBSCAN_init c0 D0 e m) = Some st' /\
    same_params (DBSCAN_init c0 D0 e m) st' /\
    solid st' /\ incl D0 (visited st').
Proof.
  set (st := DBSCAN_init c0 D0 e m).
  destruct (run_state_returns st) as [st' H]. exists st'.
  split; [assumption |]. split; [now apply run_loop_params in H |]. split.
  - apply (solid_run_loop (length (D st)) (D st) st st');
      [apply incl_refl | apply solid_init | assumption].
  - now destruct (run_loop_visited _ _ _ _ H) as [_ Hall].
Qed.

End Density.

Section Classification.

Lemma reachable_in_dataset (st : State) (s a : Point) :
  In s (D st) -> reachable st s a -> In a (D st).
Proof.
  intros Hs H. destruct H as [| q a _ _ Ha]; [assumption |].
  now apply regionQuery_incl in Ha.
Qed.

Lemma in_all_members (cs : list Cluster) (q : Point) :
  In q (all_members cs) <-> clustered cs q.
Proof.
  unfold all_members, clustered. rewrite in_concat. split.
  - intros (l & Hl & Hq). apply in_map_iff in Hl as (C & <- & HC). now exists C.
  - intros (C & HC & Hq). exists (pts C). split; [now apply in_map | assumption].
Qed.

(** What the output of a run says about density, in terms of the engine
    as built. *)
Lemma dbscan_density (c0 : Z) (D0 : list Point) (e : Qc) (m : Z) :
  let st := DBSCAN_init c0 D0 e m in
  exists r,
    dbscan c0 D0 e m = Some r /\
    NoDup (snd r) /\
    (forall p, In p D0 -> In p (snd r) \/ clustered (fst r) p) /\
    (forall C, In C (fst r) ->
       exists s X, pts C = s :: X /\ In s D0 /\ core st s = true /\
                   forall a, In a (pts C) <-> reachable st s a) /\
    (forall q, In q D0 -> core st q = true ->
               count_occ point_eq_dec (all_members (fst r)) q = 1) /\
    (forall q, In q (snd r) -> core st q = false).
Proof.
  intros st.
  destruct (run_state_solid c0 D0 e m) as (st' & Hrun & Hpar & Hsol & Hall).
  fold st in Hrun, Hpar.
  exists (result st'). unfold dbscan, run. fold st. rewrite Hrun.
  split; [reflexivity |].
  destruct Hsol as (Hwf & _ & Hseed & Honce & Hsparse).
  destruct Hwf as (_ & HvD & Hnd & _ & Hcl & Hcov).
  assert (HD : D st' = D0) by apply Hpar.
  rewrite HD in HvD. simpl fst. simpl snd.
  split; [exact Hnd |]. split.
  { intros p Hp. apply Hcov. now apply Hall. }
  split; [| split].
  - intros C HC. destruct (Hseed C HC) as (s & X & Hpts & Hcore & Hiff).
    exists s, X. split; [assumption |]. split.
    + apply HvD. apply (Hcl C HC). rewrite Hpts. now left.
    + split; [now rewrite <- (core_params st st' s Hpar) |].
      intros a. rewrite (Hiff a). split; apply reachable_params;
        [now apply same_params_sym | assumption].
  - intros q Hq Hcore. rewrite <- (core_params st st' q Hpar) in Hcore.
    rewrite (Honce q Hcore).
    assert (E : inb q (visited st') = true) by (apply inb_In; now apply Hall).
    now rewrite E.
  - intros q Hq. rewrite <- (core_params st st' q Hpar). now apply Hsparse.
Qed.

End Classification.

(** X1.  Every cluster of the output begins with a core point of the
    dataset, its seed, and its members are exactly the points that are
    density-reachable from the seed: the seed itself, and the neighbours
    of the core points already reached. *)
Theorem cluster_is_reachable_set (next_cid : Z) (D0 : list Point)
    (eps0 : Qc) (minPts0 : Z) :
  let st := DBSCAN_init next_cid D0 eps0 minPts0 in
  exists r,
    dbscan next_cid D0 eps0 minPts0 = Some r /\
    forall C, In C (fst r) ->
      exists s X, pts C = s :: X /\ In s D0 /\ core st s = true /\
                  forall a, In a (pts C) <-> reachable st s a.
Proof.
  intros st.
  destruct (dbscan_density next_cid D0 eps0 minPts0)
    as (r & Hr & _ & _ & Hseed & _).
  exists r. now split.
Qed.

(** X2.  A core point of the dataset is a member of exactly one cluster,
    once, and is not on the noise list: over core points the output is a
    partition. *)
Theorem core_point_in_one_cluster (next_cid : Z) (D0 : list Point)
    (eps0 : Qc) (minPts0 : Z) :
  let st := DBSCAN_init next_cid D0 eps0 minPts0 in
  exists r,
    dbscan next_cid D0 eps0 minPts0 = Some r /\
    forall q, In q D0 -> core st q = true ->
      count_occ point_eq_dec (all_members (fst r)) q = 1 /\
      ~ In q (snd r) /\
      count_occ point_eq_dec (entries r) q = 1.
Proof.
  intros st.
  destruct (dbscan_density next_cid D0 eps0 minPts0)
    as (r & Hr & _ & _ & _ & Honce & Hsparse).
  exists r. split; [assumption |]. intros q Hq Hcore.
  assert (Hn : ~ In q (snd r)).
  { intros Hin. apply Hsparse in Hin. fold st in Hin. congruence. }
  split; [now apply Honce |]. split; [assumption |].
  unfold entries. fold (all_members (fst r)).
  rewrite count_occ_app, (Honce q Hq Hcore).
  apply (count_occ_not_In point_eq_dec) in Hn. now rewrite Hn.
Qed.

Lemma core_point_in_one_cluster_witness :
  exists r,
    dbscan 0 shared_border (num 1 1) 4 = Some r /\
    count_occ point_eq_dec (all_members (fst r)) (pnt "Q" 1 0) = 1.
Proof.
  destruct (core_point_in_one_cluster 0 shared_border (num 1 1) 4)
    as (r & Hr & H).
  exists r. split; [exact Hr |].
  apply H.
  - simpl. do 4 right. left. reflexivity.
  - vm_compute. reflexivity.
Defined.

(** X3.  How [run] classifies the dataset.  A noise point is never a core
    point.  A point in the region query of some core point of the dataset
    is in a cluster.  A point of the dataset that is not a core point and
    is in the region query of no core point is on the noise list, once,
    and in no cluster. *)
Theorem classification (next_cid : Z) (D0 : list Point) (eps0 : Qc)
    (minPts0 : Z) :
  let st := DBSCAN_init next_cid D0 eps0 minPts0 in
  exists r,
    dbscan next_cid D0 eps0 minPts0 = Some r /\
    (forall q, In q (snd r) -> core st q = false) /\
    (forall p w, In w D0 -> core st w = true -> In p (regionQuery st w) ->
                 clustered (fst r) p) /\
    (forall p, In p D0 -> core st p = false ->
       (forall w, In w D0 -> core st w = true -> ~ In p (regionQuery st w)) ->
       In p (snd r) /\ ~ clustered (fst r) p /\
       count_occ point_eq_dec (entries r) p = 1).
Proof.
  intros st.
  destruct (dbscan_density next_cid D0 eps0 minPts0)
    as (r & Hr & Hnd & Hcov & Hseed & Honce & Hsparse).
  fold st in Hseed, Honce, Hsparse.
  exists r. split; [assumption |]. split; [assumption |]. split.
  - intros p w Hw Hcore Hp.
    assert (Hin : In w (all_members (fst r))).
    { apply (count_occ_In point_eq_dec). rewrite (Honce w Hw Hcore). lia. }
    apply in_all_members in Hin as (C & HC & HwC).
    exists C. split; [assumption |].
    destruct (Hseed C HC) as (s & X & _ & _ & _ & Hiff).
    apply Hiff. apply (reach_step st s w p); [now apply Hiff | assumption | assumption].
  - intros p Hp Hsparse_p Hlone.
    assert (Hnc : ~ clustered (fst r) p).
    { intros (C & HC & HpC).
      destruct (Hseed C HC) as (s & X & _ & Hs & Hcore & Hiff).
      apply Hiff in HpC.
      destruct HpC as [| q a Hrq Hcq Haq].
      - congruence.
      - apply (Hlone q); try assumption.
        now apply (reachable_in_dataset st s q). }
    assert (Hn : In p (snd r)).
    { destruct (Hcov p Hp) as [H | H]; [assumption | contradiction]. }
    split; [assumption |]. split; [assumption |].
    unfold entries. fold (all_members (fst r)). rewrite count_occ_app.
    assert (E0 : count_occ point_eq_dec (all_members (fst r)) p = 0).
    { apply count_occ_not_In. intros H. apply Hnc. now apply in_all_members. }
    rewrite E0. simpl.
    now apply (proj1 (NoDup_count_occ' point_eq_dec (snd r)) Hnd p).
Qed.

Lemma classification_witness :
  let D0 := [pnt "A" 0 0; pnt "B" 0 1; pnt "C" 0 2; pnt "D" 10 10] in
  exists r,
    dbscan 0 D0 (num 3 2) 2 = Some r /\
    clustered (fst r) (pnt "B" 0 1) /\
    In (pnt "D" 10 10) (snd r) /\
    ~ clustered (fst r) (pnt "D" 10 10).
Proof.
  intros D0.
  destruct (classification 0 D0 (num 3 2) 2)
    as (r & Hr & _ & Hborder & Hlone).
  exists r. split; [exact Hr |]. split.
  - apply (Hborder (pnt "B" 0 1) (pnt "A" 0 0)).
    + left. reflexivity.
    + vm_compute. reflexivity.
    + apply inb_In. vm_compute. reflexivity.
  - destruct (Hlone (pnt "D" 10 10)) as (Hn & Hnc & _).
    + simpl. do 3 right. left. reflexivity.
    + vm_compute. reflexivity.
    + intros w Hw Hc. apply inb_not_In.
      destruct Hw as [<- | [<- | [<- | [<- | []]]]];
        try (vm_compute; reflexivity).
      vm_compute in Hc. discriminate Hc.
    + split; assumption.
Defined.

(** ** The absorption scan *)

(** X5.  In an expansion, where [C] is the last cluster of the list, the
    scan over all clusters comes to "append [p] to [C] unless [C] has it":
    what the other clusters hold makes no difference, so a point already
    in an earlier cluster is added to [C] as well. *)
Theorem absorb_adds_unless_member (st : State) (pre : list Cluster)
    (C : Cluster) (p : Point) :
  Clusters st = pre ++ [C] ->
  absorb (Clusters st) (length pre) p st
  = if inb p (pts C) then st else addPoint (length pre) p st.
Proof.
  intros H. pose proof (pts_at_last st pre C H) as Hat.
  destruct (inb p (pts C)) eqn:E.
  - apply absorb_no_change. now rewrite Hat.
  - apply absorb_adds; [now rewrite Hat |].
    exists C. split; [| assumption]. rewrite H. apply in_or_app. right. now left.
Qed.

Lemma absorb_adds_unless_member_witness :
  let K := {| cid := 0; pts := [pnt "M" 0 0] |} in
  let C := {| cid := 1; pts := [pnt "Q" 1 0] |} in
  let st := set_Clusters [K; C] (DBSCAN_init 2 shared_border (num 1 1) 4) in
  Clusters (absorb (Clusters st) 1 (pnt "M" 0 0) st)
  = [K; {| cid := 1; pts := [pnt "Q" 1 0; pnt "M" 0 0] |}].
Proof.
  intros K C st.
  pose proof (absorb_adds_unless_member st [K] C (pnt "M" 0 0) eq_refl) as H.
  simpl length in H. rewrite H. vm_compute. reflexivity.
Defined.

(** ** Calling [run] again *)

(** X6.  A second call of [run] on the same engine object finds every
    point of the dataset visited and changes nothing: it returns the same
    clusters and noise. *)
Theorem run_twice (st st' : State) :
  run_state st = Some st' ->
  run_state st' = Some st' /\ run st' = run st.
Proof.
  intros H. pose proof (run_again st st' H) as H2.
  split; [assumption |]. unfold run. now rewrite H, H2.
Qed.

Lemma run_twice_witness :
  exists st',
    run_state (DBSCAN_init 0 border_first (num 1 1) 3) = Some st' /\
    run st' = run (DBSCAN_init 0 border_first (num 1 1) 3).
Proof.
  destruct (run_state_returns (DBSCAN_init 0 border_first (num 1 1) 3))
    as [st' H].
  exists st'. split; [exact H |].
  exact (proj2 (run_twice _ st' H)).
Defined.

(** ** Edge cases of [minPts] and [eps] *)

Section EdgeCases.

Lemma all_noise_state (v : list Point) (st : State) :
  NOISE st = visited st -> v = visited st ->
  set_NOISE v (set_visited v st) = st.
Proof. intros Hn ->. destruct st. simpl in *. now subst. Qed.

Lemma run_loop_all_noise (fuel : nat) (todo : list Point) (st : State) :
  (Z.of_nat (length (D st)) < minPts st)%Z ->
  NOISE st = visited st ->
  run_loop fuel todo st
  = Some (set_NOISE (extend (visited st) todo)
            (set_visited (extend (visited st) todo) st)).
Proof.
  revert st. induction todo as [| p todo IH]; intros st Hm Hn.
  - simpl. f_equal. symmetry. now apply all_noise_state.
  - simpl run_loop. unfold run_body.
    destruct (inb p (visited st)) eqn:Ev; simpl negb; cbv iota.
    + rewrite (IH st Hm Hn). unfold extend. simpl. now rewrite Ev.
    + assert (Hlt : (Z.of_nat (length (regionQuery (appendVisited p st) p))
                     <? minPts (appendVisited p st))%Z = true).
      { apply Z.ltb_lt. simpl minPts.
        pose proof (List.filter_length_le
                      (fun q => Qc_le_bool (sqdist q p) (eps st)) (D st)) as Hle.
        change (length (regionQuery (appendVisited p st) p) <= length (D st))
          in Hle.
        lia. }
      rewrite Hlt.
      rewrite (IH (appendNOISE p (appendVisited p st)));
        [| assumption | simpl; now rewrite Hn].
      unfold extend. simpl. now rewrite Ev.
Qed.

Lemma filter_all (f : Point -> bool) (l : list Point) :
  (forall x, In x l -> f x = true) -> filter f l = l.
Proof.
  induction l as [| x l IH]; intros H; simpl; [reflexivity |].
  rewrite (H x (or_introl eq_refl)). f_equal.
  apply IH. intros y Hy. apply H. now right.
Qed.

End EdgeCases.

(** X7.  When [minPts] exceeds the number of points of the dataset, [run]
    founds no cluster: the noise list holds every distinct point, in the
    order of first occurrence. *)
Theorem minPts_above_size_all_noise (next_cid : Z) (D0 : list Point)
    (eps0 : Qc) (minPts0 : Z) :
  (Z.of_nat (length D0) < minPts0)%Z ->
  dbscan next_cid D0 eps0 minPts0 = Some ([], extend [] D0).
Proof.
  intros Hm. unfold dbscan, run, run_state, run_fuel.
  rewrite run_loop_all_noise; [reflexivity | assumption | reflexivity].
Qed.

Lemma minPts_above_size_all_noise_witness :
  dbscan 0 [pnt "A" 0 0; pnt "B" 0 1; pnt "A" 0 0] (num 5 1) 4
  = Some ([], [pnt "A" 0 0; pnt "B" 0 1]).
Proof.
  apply (minPts_above_size_all_noise 0 [pnt "A" 0 0; pnt "B" 0 1; pnt "A" 0 0]
           (num 5 1) 4).
  simpl. lia.
Defined.

(** X8.  When the region query of the first point of a dataset returns
    every point of the dataset and [minPts] is at most the dataset's
    length, [run] returns a single cluster, seeded by the first point and
    holding every point once, and an empty noise list. *)
Theorem one_dense_group_one_cluster (next_cid : Z) (p0 : Point)
    (rest : list Point) (eps0 : Qc) (minPts0 : Z) :
  (forall a, In a (p0 :: rest) ->
     In a (regionQuery (DBSCAN_init next_cid (p0 :: rest) eps0 minPts0) p0)) ->
  (minPts0 <= Z.of_nat (length (p0 :: rest)))%Z ->
  exists X,
    dbscan next_cid (p0 :: rest) eps0 minPts0
    = Some ([ {| cid := next_cid; pts := p0 :: X |} ], []) /\
    NoDup (p0 :: X) /\
    forall a, In a (p0 :: X) <-> In a (p0 :: rest).
Proof.
  intros Hnear Hm.
  set (D0 := p0 :: rest) in *.
  set (st := DBSCAN_init next_cid D0 eps0 minPts0).
  assert (Hrq : regionQuery st p0 = D0).
  { unfold regionQuery. simpl D. apply filter_all.
    intros x Hx. apply Hnear in Hx. unfold regionQuery in Hx.
    now apply filter_In in Hx. }
  assert (Hcore : core st p0 = true).
  { unfold core. rewrite Hrq. now apply Z.leb_le. }
  destruct (run_body_terminates st p0 (length D0) (Nat.le_refl _)) as [st1 H1].
  pose proof (run_body_cases _ _ _ _ H1)
    as [[Ev _] | [(_ & Ec & _) | (_ & _ & Hex)]];
    [discriminate | congruence |].
  destruct Hex as (_ & _ & Hn & N' & W & X & He & _ & _ & HNV & _ & HC & HndX
                   & HXN & HNX & _).
  assert (HDN : incl D0 N').
  { destruct He as (A & -> & _). rewrite Hrq. intros a Ha.
    apply in_or_app. now left. }
  exists X. split; [| split].
  - assert (Hrun : run_state st = Some st1).
    { change (match run_body (length D0) p0 st with
              | Some st' => run_loop (length D0) rest st'
              | None => None
              end = Some st1).
      rewrite H1. apply run_loop_all_visited.
      intros a Ha. apply HNV. apply HDN. now right. }
    unfold dbscan, run. fold D0. fold st. rewrite Hrun. simpl.
    unfold result. now rewrite HC, Hn.
  - assumption.
  - intros a. split.
    + intros [<- | Ha]; [now left |].
      apply (extends_N0_incl st p0 N' He). now apply HXN.
    + intros Ha. apply HNX. now apply HDN.
Qed.

Lemma one_dense_group_one_cluster_witness :
  exists X,
    dbscan 0 [pnt "A" 0 0; pnt "B" 1 0; pnt "C" 0 1] (num 2 1) 3
    = Some ([ {| cid := 0; pts := pnt "A" 0 0 :: X |} ], []) /\
    NoDup (pnt "A" 0 0 :: X) /\
    forall a, In a (pnt "A" 0 0 :: X)
              <-> In a [pnt "A" 0 0; pnt "B" 1 0; pnt "C" 0 1].
Proof.
  apply (one_dense_group_one_cluster 0 (pnt "A" 0 0)
           [pnt "B" 1 0; pnt "C" 0 1] (num 2 1) 3).
  - intros a Ha. apply inb_In.
    destruct Ha as [<- | [<- | [<- | []]]]; vm_compute; reflexivity.
  - simpl. lia.
Defined.

(** ** Cluster ids *)

Lemma ids_NoDup (c0 : Z) (n : nat) : NoDup (ids c0 n).
Proof.
  unfold ids. apply Injective_map_NoDup; [| apply seq_NoDup].
  intros i j H. lia.
Qed.

Lemma ids_bounds (c0 : Z) (n : nat) (z : Z) :
  In z (ids c0 n) -> (c0 <= z < c0 + Z.of_nat n)%Z.
Proof.
  unfold ids. intros H. apply in_map_iff in H as (i & <- & Hi).
  apply in_seq in Hi. lia.
Qed.

(** X9.  [run] takes the ids of its clusters from the class counter and
    leaves the counter just past the last one: the ids of a run are
    pairwise distinct, lie between the counter's value at the start and at
    the end, and the counter has advanced by the number of clusters, so
    that clusters created later get other ids. *)
Theorem cluster_ids_fresh (next_cid : Z) (D0 : list Point) (eps0 : Qc)
    (minPts0 : Z) :
  exists st',
    run_state (DBSCAN_init next_cid D0 eps0 minPts0) = Some st' /\
    Cluster_cid st' = (next_cid + Z.of_nat (length (Clusters st')))%Z /\
    NoDup (map cid (Clusters st')) /\
    forall C, In C (Clusters st') ->
              (next_cid <= cid C < Cluster_cid st')%Z.
Proof.
  destruct (dbscan_renumber next_cid next_cid D0 eps0 minPts0)
    as (st' & H & _ & Hids & Hc).
  exists st'. split; [assumption |]. split; [assumption |]. split.
  - rewrite Hids. apply ids_NoDup.
  - intros C HC. rewrite Hc. apply ids_bounds. rewrite <- Hids.
    now apply in_map.
Qed.

(** ** The order of the output *)

Section Order.

Lemma subseq_nil_l (l : list Point) : subseq [] l.
Proof. induction l; now constructor. Qed.

Lemma seeds_snoc (cs : list Cluster) (C : Cluster) :
  seeds (cs ++ [C]) = seeds cs ++ firstn 1 (pts C).
Proof. unfold seeds. rewrite flat_map_app. simpl. now rewrite app_nil_r. Qed.

Lemma run_loop_order (fuel : nat) (todo : list Point) (st st' : State) :
  run_loop fuel todo st = Some st' ->
  exists L S,
    NOISE st' = NOISE st ++ L /\ subseq L todo /\
    seeds (Clusters st') = seeds (Clusters st) ++ S /\ subseq S todo.
Proof.
  revert st. induction todo as [| p todo IH]; intros st H; simpl in H.
  - injection H as <-. exists [], []. rewrite !app_nil_r.
    repeat split; constructor.
  - destruct (run_body fuel p st) as [st1 |] eqn:E; [| discriminate].
    destruct (IH st1 H) as (L & S & HL & HsL & HS & HsS).
    apply run_body_cases in E as [[_ ->] | [(_ & _ & ->) | (_ & _ & Hex)]].
    + exists L, S. repeat split; try assumption; now constructor.
    + exists (p :: L), S. simpl in HL, HS. repeat split.
      * now rewrite HL, <- app_assoc.
      * now constructor.
      * assumption.
      * now constructor.
    + destruct Hex as (_ & _ & Hn & N' & W & X & _ & _ & _ & _ & _ & HC & _).
      exists L, (p :: S). repeat split.
      * now rewrite HL, Hn.
      * now constructor.
      * rewrite HS, HC, seeds_snoc. simpl. now rewrite <- app_assoc.
      * now constructor.
Qed.

End Order.

(** X10.  The output follows the dataset: the noise list, and the list of
    the clusters' first members, are each the dataset with some points
    left out, the others in dataset order. *)
Theorem output_in_dataset_order (next_cid : Z) (D0 : list Point) (eps0 : Qc)
    (minPts0 : Z) :
  exists r,
    dbscan next_cid D0 eps0 minPts0 = Some r /\
    subseq (snd r) D0 /\
    subseq (seeds (fst r)) D0.
Proof.
  set (st := DBSCAN_init next_cid D0 eps0 minPts0).
  destruct (run_state_returns st) as [st' H].
  exists (result st'). unfold dbscan, run. fold st. rewrite H.
  split; [reflexivity |].
  destruct (run_loop_order _ _ _ _ H) as (L & S & HL & HsL & HS & HsS).
  simpl in HL, HS. simpl. rewrite HL, HS. now split.
Qed.

(** ** Neighbourhoods against the threshold *)

(** X11.  With a larger threshold, [0 <= eps1 <= eps2], on the same
    dataset and [minPts], every region query contains the one of the
    smaller threshold, and every core point stays a core point. *)
Theorem neighbourhood_grows_with_eps (c1 c2 : Z) (D0 : list Point)
    (minPts0 : Z) (eps1 eps2 : Qc) (q : Point) :
  (0 <= eps1)%Qc -> (eps1 <= eps2)%Qc ->
  let s1 := DBSCAN_init c1 D0 eps1 minPts0 in
  let s2 := DBSCAN_init c2 D0 eps2 minPts0 in
  incl (regionQuery s1 q) (regionQuery s2 q) /\
  length (regionQuery s1 q) <= length (regionQuery s2 q) /\
  (core s1 q = true -> core s2 q = true).
Proof.
  intros H0 Hle s1 s2.
  assert (Hco : coarser s1 s2).
  { split; [reflexivity |]. split; [reflexivity |].
    simpl. now apply Qc_square_mono. }
  split; [now apply regionQuery_mono |]. split; [| now apply core_mono].
  unfold regionQuery. simpl D. apply filter_length_le.
  intros x Hx. apply Qc_le_bool_iff in Hx. apply Qc_le_bool_iff.
  eapply Qcle_trans; [eassumption | apply Hco].
Qed.

Lemma neighbourhood_grows_with_eps_witness :
  incl (regionQuery (DBSCAN_init 0 border_first (num 1 1) 3) (pnt "A" 0 0))
       (regionQuery (DBSCAN_init 0 border_first (num 2 1) 3) (pnt "A" 0 0)).
Proof.
  apply (neighbourhood_grows_with_eps 0 0 border_first 3 (num 1 1) (num 2 1)
           (pnt "A" 0 0)).
  - vm_compute. discriminate.
  - vm_compute. discriminate.
Defined.

(** ** Noise against both parameters *)

Section Permissive.

Lemma regionQuery_laxer (s1 s2 : State) (q : Point) :
  laxer s1 s2 -> incl (regionQuery s1 q) (regionQuery s2 q).
Proof.
  intros (HD & _ & He) a Ha. apply regionQuery_In in Ha as [Ha Hd].
  apply regionQuery_In. rewrite HD. split; [assumption |].
  eapply Qcle_trans; eassumption.
Qed.

Lemma core_laxer (s1 s2 : State) (q : Point) :
  laxer s1 s2 -> core s1 q = true -> core s2 q = true.
Proof.
  intros (HD & Hm & He) H. unfold core in *. apply Z.leb_le in H.
  apply Z.leb_le.
  assert (Hlen : length (regionQuery s1 q) <= length (regionQuery s2 q)).
  { unfold regionQuery. rewrite HD. apply filter_length_le.
    intros x Hx. apply Qc_le_bool_iff in Hx. apply Qc_le_bool_iff.
    eapply Qcle_trans; eassumption. }
  lia.
Qed.

Lemma laxer_body (fuel : nat) (p : Point) (s1 s2 t1 t2 : State) :
  laxer s1 s2 ->
  run_body fuel p s1 = Some t1 -> run_body fuel p s2 = Some t2 ->
  laxer t1 t2.
Proof.
  intros (HD & Hm & He) H1 H2.
  apply run_body_params in H1 as (HD1 & Hm1 & He1).
  apply run_body_params in H2 as (HD2 & Hm2 & He2).
  unfold laxer. rewrite HD1, HD2, Hm1, Hm2, He1, He2. now repeat split.
Qed.

Lemma ahead_lax_body (fuel : nat) (p : Point) (s1 s2 t1 t2 : State) :
  ahead_lax s1 s2 ->
  run_body fuel p s1 = Some t1 -> run_body fuel p s2 = Some t2 ->
  ahead_lax t1 t2.
Proof.
  intros (Hco & Hcl & Hv & Hn) H1 H2.
  pose proof (closed_body fuel p s2 t2 Hcl H2) as Hcl2.
  pose proof (run_body_visited fuel p s2 t2 H2) as [[W2 HW2] Hp2].
  pose proof (run_body_params fuel p s2 t2 H2) as Hpar2.
  split; [now apply (laxer_body fuel p s1 s2) |]. split; [assumption |].
  split.
  - intros a Ha.
    apply (run_body_within fuel p s1 t1 (fun a => In a (visited t2)) H1);
      try assumption.
    + intros q Hq Hcore b Hb.
      apply (core_laxer s1 s2 q Hco) in Hcore.
      apply (regionQuery_laxer s1 s2 q Hco) in Hb.
      rewrite <- (core_params s2 t2 q Hpar2) in Hcore.
      rewrite <- (regionQuery_params s2 t2 q Hpar2) in Hb.
      now apply (Hcl2 q Hq Hcore).
    + intros b Hb. rewrite HW2. apply in_or_app. left. now apply Hv.
  - assert (Hn1 : incl (NOISE s1) (NOISE t1)).
    { destruct (run_body_noise fuel p s1 t1 H1) as [-> | [-> _]];
        [apply incl_refl | intros a Ha; apply in_or_app; now left]. }
    destruct (run_body_noise fuel p s2 t2 H2) as [-> | (-> & Ev2 & Ec2)].
    + intros a Ha. apply Hn1. now apply Hn.
    + intros a Ha. apply in_app_or in Ha as [Ha | [<- | []]];
        [apply Hn1; now apply Hn |].
      destruct (run_body_cases fuel p s1 t1 H1)
        as [[Ev1 _] | [(_ & _ & ->) | (_ & Ec1 & _)]].
      * apply inb_In in Ev1. apply Hv in Ev1. apply inb_In in Ev1. congruence.
      * simpl. apply in_or_app. right. now left.
      * apply (core_laxer s1 s2 p Hco) in Ec1. congruence.
Qed.

Lemma ahead_lax_run_loop (fuel : nat) (todo : list Point)
    (s1 s2 t1 t2 : State) :
  ahead_lax s1 s2 ->
  run_loop fuel todo s1 = Some t1 -> run_loop fuel todo s2 = Some t2 ->
  ahead_lax t1 t2.
Proof.
  revert s1 s2. induction todo as [| p todo IH]; intros s1 s2 Ha H1 H2;
    simpl in *.
  - injection H1 as <-. injection H2 as <-. assumption.
  - destruct (run_body fuel p s1) as [u1 |] eqn:E1; [| discriminate].
    destruct (run_body fuel p s2) as [u2 |] eqn:E2; [| discriminate].
    apply (IH u1 u2); try assumption.
    now apply (ahead_lax_body fuel p s1 s2).
Qed.

End Permissive.

(** X12.  Making the parameters more permissive never adds noise: with
    [0 <= eps1 <= eps2] and [minPts2 <= minPts1], every point on the noise
    list of the run with [(eps2, minPts2)] is on the noise list of the run
    with [(eps1, minPts1)], which is therefore at least as long. *)
Theorem noise_shrinks_when_permissive (c1 c2 : Z) (D0 : list Point)
    (eps1 eps2 : Qc) (minPts1 minPts2 : Z) :
  (0 <= eps1)%Qc -> (eps1 <= eps2)%Qc -> (minPts2 <= minPts1)%Z ->
  exists r1 r2,
    dbscan c1 D0 eps1 minPts1 = Some r1 /\
    dbscan c2 D0 eps2 minPts2 = Some r2 /\
    incl (snd r2) (snd r1) /\
    length (snd r2) <= length (snd r1).
Proof.
  intros H0 Hle Hm.
  set (s1 := DBSCAN_init c1 D0 eps1 minPts1).
  set (s2 := DBSCAN_init c2 D0 eps2 minPts2).
  destruct (run_state_returns s1) as [t1 H1].
  destruct (run_state_returns s2) as [t2 H2].
  exists (result t1), (result t2). unfold dbscan, run. fold s1 s2.
  rewrite H1, H2. split; [reflexivity |]. split; [reflexivity |].
  assert (Hah : ahead_lax t1 t2).
  { apply (ahead_lax_run_loop (length D0) D0 s1 s2 t1 t2);
      [| exact H1 | exact H2].
    split; [| split; [| split]].
    - split; [reflexivity |]. split; [assumption |].
      simpl. now apply Qc_square_mono.
    - intros q [].
    - intros q [].
    - intros q []. }
  destruct Hah as (_ & _ & _ & Hn).
  assert (Hwf : wf t2).
  { apply (wf_run_loop (length (D s2)) (D s2) s2 t2);
      [apply incl_refl | apply wf_init | exact H2]. }
  destruct Hwf as (_ & _ & Hnd & _).
  split; [exact Hn |]. now apply NoDup_incl_length.
Qed.

Lemma noise_shrinks_when_permissive_witness :
  exists r1 r2,
    dbscan 0 border_first (num 1 1) 3 = Some r1 /\
    dbscan 0 border_first (num 1 1) 2 = Some r2 /\
    incl (snd r2) (snd r1) /\
    length (snd r2) <= length (snd r1).
Proof.
  apply (noise_shrinks_when_permissive 0 0 border_first (num 1 1) (num 1 1) 3 2).
  - vm_compute. discriminate.
  - vm_compute. discriminate.
  - lia.
Defined.
